(** * The GitHub-backed file systems of the docs server

    A shallow embedding of
    [chrome/common/extensions/docs/server2/github_file_system.py] (module
    [Old] below) and
    [chrome/common/extensions/docs/server2/new_github_file_system.py]
    (module [New] below), together with the properties of [Read], [Stat],
    [Refresh] and of the memoising [Future] that the documentation of the
    file systems states. *)

From Stdlib Require Import ZArith Lia Ascii.
From stdpp Require Import base option list strings gmap.

Set Warnings "-register-all".

(** ** Python byte strings *)

(** Python 2 [str] values are byte strings; they are embedded as [string].
    Each helper below is the string method or slice of the same shape. *)

Definition sep : ascii := "/"%char.

(** [s.startswith(t)] *)
Fixpoint startswith (s t : string) : bool :=
  match t, s with
  | EmptyString, _ => true
  | String c t', String d s' => bool_decide (c = d) && startswith s' t'
  | String _ _, EmptyString => false
  end.

(** [s[n:]] for [0 <= n] *)
Fixpoint drop_str (n : nat) (s : string) : string :=
  match n, s with
  | O, _ => s
  | S n', String _ s' => drop_str n' s'
  | S _, EmptyString => EmptyString
  end.

(** [s[:-1]] *)
Fixpoint init_str (s : string) : string :=
  match s with
  | EmptyString => EmptyString
  | String _ EmptyString => EmptyString
  | String c s' => String c (init_str s')
  end.

(** [s[-1:]] *)
Fixpoint last_str (s : string) : string :=
  match s with
  | EmptyString => EmptyString
  | String c EmptyString => s
  | String _ s' => last_str s'
  end.

(** [s[k:]] for an arbitrary integer [k]: a negative start counts from the
    end of the string and is clipped at its beginning. *)
Definition slice_from (k : Z) (s : string) : string :=
  if (k <? 0)%Z
  then drop_str (Z.to_nat (Z.max 0 (Z.of_nat (String.length s) + k))) s
  else drop_str (Z.to_nat k) s.

(** [s.count(c)] for a one-character [c] *)
Fixpoint count (c : ascii) (s : string) : nat :=
  match s with
  | EmptyString => 0
  | String d s' => (if bool_decide (d = c) then 1 else 0) + count c s'
  end.

(** [c in s] for a one-character [c] *)
Fixpoint contains (c : ascii) (s : string) : bool :=
  match s with
  | EmptyString => false
  | String d s' => bool_decide (d = c) || contains c s'
  end.

(** [s.endswith('/')] *)
Definition endswith_sep (s : string) : bool :=
  bool_decide (last_str s = String sep EmptyString).

(** [s.split('/')[0]]: everything before the first separator. *)
Fixpoint split_head (s : string) : string :=
  match s with
  | EmptyString => EmptyString
  | String c s' => if bool_decide (c = sep) then EmptyString
                   else String c (split_head s')
  end.

(** [s.split('/', 1)]: at most one split; the second component is absent
    when [s] holds no separator (indexing it raises [IndexError]). *)
Fixpoint split1 (s : string) : string * option string :=
  match s with
  | EmptyString => (EmptyString, None)
  | String c s' =>
      if bool_decide (c = sep) then (EmptyString, Some s')
      else let '(h, t) := split1 s' in (String c h, t)
  end.

(** ** Exceptions and results *)

(** The argument an exception was built from: a message, or (for
    [FileNotFoundError(error)]) the [KeyError] it wraps. *)
Inductive exn_arg :=
| ArgText (msg : string)
| ArgNoStat (path : string)        (* "No stat found for '%s'" % path *)
| ArgKeyError (name : string).     (* the KeyError raised for entry [name] *)

Inductive exn :=
| FileNotFoundError (arg : exn_arg)
| KeyError (name : string)
| IndexError
| TypeError
| ValueError
| DownloadError
| BadZipfile
| OtherError (what : string).

Inductive result (A : Type) :=
| Ok (a : A)
| Raise (e : exn).
Arguments Ok {A} a.
Arguments Raise {A} e.

Global Instance exn_arg_eq_dec : EqDecision exn_arg.
Proof. solve_decision. Defined.
Global Instance exn_eq_dec : EqDecision exn.
Proof. solve_decision. Defined.

(** ** Archives *)

(** A parsed [zipfile.ZipFile]: its members in archive order, each a name
    and the bytes stored under it. *)
Record ZipFile := { filelist : list (string * string) }.

(** [ZipFile.namelist()] *)
Definition namelist (z : ZipFile) : list string := (filelist z).*1.

(** [ZipFile.NameToInfo]: filled member by member while the directory of
    the archive is read, so a later member of the same name replaces an
    earlier one. *)
Definition NameToInfo (z : ZipFile) : gmap string string :=
  foldl (fun m e => <[e.1 := e.2]> m) ∅ (filelist z).

(** [ZipFile.read(name)] *)
Definition read (z : ZipFile) (name : string) : result string :=
  match NameToInfo z !! name with
  | Some bytes => Ok bytes
  | None => Raise (KeyError name)
  end.

(** ** Versions and stat results *)

(** A repository version: the ['sha'] of the head commit's tree, or the
    integer [0] the old file system stores when none could be obtained.
    Python's [None] is the [None] of [option Version]. *)
Inductive Version :=
| Sha (sha : string)
| Zero.

Global Instance Version_eq_dec : EqDecision Version.
Proof. solve_decision. Defined.

(** [str(version)] *)
Definition str_of_version (v : option Version) : string :=
  match v with
  | Some (Sha s) => s
  | Some Zero => "0"
  | None => "None"
  end.

(** Modelled from the spec: [file_system.StatInfo] is not among the
    sources.  A stat result holds a version and, for a directory, the
    versions of its children; [StatInfo(version)] leaves [child_versions]
    at [None]. *)
Inductive StatInfo :=
| mkStatInfo (version : option Version)
             (child_versions : option (gmap string StatInfo)).

Definition version (s : StatInfo) : option Version :=
  match s with mkStatInfo v _ => v end.
Definition child_versions (s : StatInfo) : option (gmap string StatInfo) :=
  match s with mkStatInfo _ c => c end.

(** What [Read] maps a path to: a directory listing or file bytes. *)
Inductive content :=
| Listing (names : list string)
| Bytes (bytes : string).

(** ** Deferred values *)

(** Modelled from the spec: [future.Future] is imported by both file
    systems but is not among the sources.  A future is built from a value
    or from a delegate; its first [Get] with a delegate runs the delegate
    once and keeps the outcome, success or failure, and every later [Get]
    returns the kept outcome. *)
Inductive Future (D V : Type) :=
| FutureValue (value : V)
| FutureDelegate (delegate : D)
| FutureRaised (e : exn).
Arguments FutureValue {D V} value.
Arguments FutureDelegate {D V} delegate.
Arguments FutureRaised {D V} e.

(** A delegate is any object with a [Get] method; running it may change the
    world [W] it was built in. *)
Class Gettable (D W V : Type) := Get : D -> W -> result V * W.

Definition Future_Get {D W V : Type} {G : Gettable D W V}
    (f : Future D V) (w : W) : result V * Future D V * W :=
  match f with
  | FutureValue v => (Ok v, f, w)
  | FutureRaised e => (Raise e, f, w)
  | FutureDelegate d =>
      match Get d w with
      | (Ok v, w') => (Ok v, FutureValue v, w')
      | (Raise e, w') => (Raise e, FutureRaised e, w')
      end
  end.

(** [n] calls of [Get] in a row on one future: the outcomes in order, and
    the future and the world after the last. *)
Fixpoint Get_times {D W V : Type} {G : Gettable D W V} (n : nat)
    (f : Future D V) (w : W) : list (result V) * Future D V * W :=
  match n with
  | O => ([], f, w)
  | S n' =>
      match Future_Get f w with
      | (r, f', w') =>
          match Get_times n' f' w' with
          | (rs, f'', w'') => (r :: rs, f'', w'')
          end
      end
  end.

(** A delegate under observation: the world is paired with the number of
    times a delegate has been run in it. *)
Record counted (D : Type) := Counted { counted_delegate : D }.
Arguments Counted {D} counted_delegate.
Arguments counted_delegate {D} c.

#[export] Instance counted_Gettable {D W V : Type} {G : Gettable D W V}
  : Gettable (counted D) (W * nat) V :=
  fun d w =>
    match Get (counted_delegate d) w.1 with
    | (r, w') => (r, (w', S w.2))
    end.

(** The future a delegate-built future has become once the delegate has
    been run with outcome [r]. *)
Definition resolved {D V : Type} (r : result V) : Future D V :=
  match r with
  | Ok v => FutureValue v
  | Raise e => FutureRaised e
  end.

(** ** The upstream repository *)

(** The decoded body of the answer to ['commits/HEAD'], as far as the file
    systems look into it: [json.loads(content)] and the descent to
    [commit.tree.sha]. *)
Inductive head_body :=
| NotJson                      (* json.loads raises ValueError *)
| NotAnObject                  (* a value on the way to 'sha' is no object *)
| MissingKey (key : string)    (* 'commit', 'tree' or 'sha' is absent *)
| ShaValue (v : option Version).

(** Modelled from the spec: the fetcher ([appengine_url_fetcher]) is not
    among the sources.  It answers a version request and an archive
    request, each with content or with an exception; this is what it
    answers at one moment: the outcome of fetching ['commits/HEAD'] and
    the outcome of fetching ['zipball']. *)
Record Upstream := {
  commits_HEAD : result head_body;
  zipball : result string
}.

(** What a call leaves behind besides its result. *)
Inductive event :=
| Fetch (url : string)
| FetchAsync (url : string)
| LogError
| LogWarning.

Global Instance event_eq_dec : EqDecision event.
Proof. solve_decision. Defined.

(** ** new_github_file_system.py *)

Module New.

Definition _GITHUB_REPOS_NAMESPACE : string := "GithubRepos".

(** Modelled from the spec: the blob store ([appengine_blobstore]) and the
    stat cache (an object store) are not among the sources; a blob store
    maps a namespace and a key to a payload, an object store maps a key to
    a value and answers [None] for a key it does not hold.

    The record is one [GithubFileSystem] with these two services.
    [_repo_zip] is only ever assigned [Future(value=...)], so the field
    holds that value: [None] or a parsed archive.  [trace] collects the
    requests made of the fetcher and the calls of [logging]. *)
Record GithubFileSystem := {
  _repo_key : string;
  _repo_url : string;
  _username : option string;
  _password : option string;
  _blobstore : gmap (string * string) string;
  _stat_cache : gmap string (option Version);
  _repo_zip : option ZipFile;
  trace : list event
}.

(** [self._stat_cache.Get(key).Get()] *)
Definition stat_cache_Get (fs : GithubFileSystem) (key : string)
    : option Version :=
  default None (_stat_cache fs !! key).

Definition _GetNamelist (fs : GithubFileSystem) : list string :=
  match _repo_zip fs with
  | None => []
  | Some zipfile => namelist zipfile
  end.

Definition _GetVersion (fs : GithubFileSystem) : option Version :=
  stat_cache_Get fs (_repo_key fs).

(** The body of the loop [Read] runs over the names that start with
    [full_path]; [f[len(full_path):-1]] is [f[len(full_path):]] without its
    last character. *)
Definition add_trimmed (full_path : string) (trimmed_paths : list string)
    (f : string) : list string :=
  if negb (contains sep (init_str (drop_str (String.length full_path) f)))
     && negb (bool_decide (f = full_path))
  then trimmed_paths ++ [drop_str (String.length full_path) f]
  else trimmed_paths.

(** The listing [Read] builds for a directory. *)
Definition trimmed_paths (names : list string) (full_path : string)
    : list string :=
  foldl (add_trimmed full_path) []
    (List.filter (fun s => startswith s full_path) names).

(** [self._repo_zip.Get().read(full_path)] with the [except KeyError]
    around it. *)
Definition read_entry (repo_zip : option ZipFile) (full_path : string)
    : result string :=
  match repo_zip with
  | None => Raise (OtherError "AttributeError")
  | Some zipfile =>
      match read zipfile full_path with
      | Raise (KeyError name) => Raise (FileNotFoundError (ArgKeyError name))
      | r => r
      end
  end.

(** The loop of [Read] over [paths], filling the dictionary [reads]. *)
Fixpoint Read_loop (repo_zip : option ZipFile) (names : list string)
    (prefix : string) (paths : list string) (reads : gmap string content)
    : result (gmap string content) :=
  match paths with
  | [] => Ok reads
  | path :: paths' =>
      let full_path := prefix +:+ path in
      if endswith_sep path
      then Read_loop repo_zip names prefix paths'
             (<[path := Listing (trimmed_paths names full_path)]> reads)
      else match read_entry repo_zip full_path with
           | Ok bytes =>
               Read_loop repo_zip names prefix paths'
                 (<[path := Bytes bytes]> reads)
           | Raise e => Raise e
           end
  end.

Definition Read (fs : GithubFileSystem) (paths : list string)
    : result (gmap string content) :=
  match _GetNamelist fs with
  | [] => Raise (FileNotFoundError
                   (ArgText "No paths can be found, repository is empty"))
  | (first :: _) as names =>
      Read_loop (_repo_zip fs) names (split_head first) paths ∅
  end.

(** ['/' + f.split('/', 1)[1] for f in names] *)
Fixpoint trim (names : list string) : result (list string) :=
  match names with
  | [] => Ok []
  | f :: names' =>
      match (split1 f).2 with
      | None => Raise IndexError
      | Some rest =>
          match trim names' with
          | Ok trimmed => Ok (String sep rest :: trimmed)
          | Raise e => Raise e
          end
      end
  end.

(** The body of the loop [Stat] runs over the names that start with
    [path]. *)
Definition add_child (version : option Version) (path : string)
    (child_paths : gmap string StatInfo) (f : string) : gmap string StatInfo :=
  let filename := drop_str (String.length path) f in
  if negb (contains sep filename) && negb (bool_decide (f = path))
  then <[filename := mkStatInfo version None]> child_paths
  else child_paths.

(** The dictionary [Stat] builds for a directory. *)
Definition child_paths (version : option Version) (trimmed : list string)
    (path : string) : gmap string StatInfo :=
  foldl (add_child version path) ∅
    (List.filter (fun s => startswith s path) trimmed).

Definition Stat (fs : GithubFileSystem) (path : string) : result StatInfo :=
  match trim (_GetNamelist fs) with
  | Raise e => Raise e
  | Ok trimmed =>
      if bool_decide (path ∈ trimmed)
      then
        let version := _GetVersion fs in
        let children :=
          if endswith_sep path then child_paths version trimmed path else ∅ in
        Ok (mkStatInfo version
              (if bool_decide (size children = 0) then None
               else Some children))
      else Raise (FileNotFoundError (ArgNoStat path))
  end.

Definition log (ev : event) (fs : GithubFileSystem) : GithubFileSystem :=
  {| _repo_key := _repo_key fs; _repo_url := _repo_url fs;
     _username := _username fs; _password := _password fs;
     _blobstore := _blobstore fs; _stat_cache := _stat_cache fs;
     _repo_zip := _repo_zip fs; trace := trace fs ++ [ev] |}.

(** The three assignments at the end of [persist_fetch]. *)
Definition install (url blob : string) (zipfile : ZipFile)
    (v : option Version) (fs : GithubFileSystem) : GithubFileSystem :=
  {| _repo_key := _repo_key fs; _repo_url := _repo_url fs;
     _username := _username fs; _password := _password fs;
     _blobstore := <[(_GITHUB_REPOS_NAMESPACE, url) := blob]> (_blobstore fs);
     _stat_cache := <[_repo_key fs := v]> (_stat_cache fs);
     _repo_zip := Some zipfile; trace := trace fs |}.

(** [json.loads(result.content)['commit']['tree']['sha']] on the answer to
    ['commits/HEAD'] *)
Definition _FetchLiveVersion (up : Upstream) (fs : GithubFileSystem)
    : result (option Version) * GithubFileSystem :=
  let fs := log (Fetch "commits/HEAD") fs in
  match commits_HEAD up with
  | Raise e => (Raise e, fs)
  | Ok NotJson => (Raise ValueError, fs)
  | Ok NotAnObject => (Raise TypeError, fs)
  | Ok (MissingKey key) => (Raise (KeyError key), fs)
  | Ok (ShaValue v) => (Ok v, fs)
  end.

(** What the closure [lambda: persist_fetch(fetch)] of one [Refresh] call
    holds: the pending fetch with the outcome its [Get] will have, and the
    [version] and [repo_zip_url] of that call. *)
Record persist_fetch_closure := {
  cl_fetch : result string;
  cl_version : option Version;
  cl_repo_zip_url : string
}.

Section Refresh.

(** [ZipFile(StringIO(blob))], of Python's [zipfile]. *)
Variable ZipFile_parse : string -> result ZipFile.

(** The handler of [DownloadError] formats a string of two [%s] with one
    argument, which raises [TypeError] before anything is logged. *)
Definition persist_fetch (cl : persist_fetch_closure) (fs : GithubFileSystem)
    : result unit * GithubFileSystem :=
  match cl_fetch cl with
  | Raise DownloadError => (Raise TypeError, fs)
  | Raise e => (Raise e, fs)
  | Ok blob =>
      match ZipFile_parse blob with
      | Raise BadZipfile => (Ok tt, log LogError fs)
      | Raise e => (Raise e, fs)
      | Ok zipfile =>
          (Ok tt, install (cl_repo_zip_url cl) blob zipfile (cl_version cl) fs)
      end
  end.

(** [_Gettable(lambda: persist_fetch(fetch)).Get()] *)
#[export] Instance _Gettable : Gettable persist_fetch_closure GithubFileSystem unit :=
  persist_fetch.

Definition Refresh (up : Upstream) (fs : GithubFileSystem)
    : result (Future persist_fetch_closure unit) * GithubFileSystem :=
  match _FetchLiveVersion up fs with
  | (Raise e, fs) => (Raise e, fs)
  | (Ok version, fs) =>
      let repo_zip_url := _repo_url fs +:+ "/zipball" in
      if bool_decide (version <> stat_cache_Get fs "stat")
      then (Ok (FutureDelegate {| cl_fetch := zipball up;
                                  cl_version := version;
                                  cl_repo_zip_url := repo_zip_url |}),
            log (FetchAsync "zipball") fs)
      else (Ok (FutureValue tt), fs)
  end.

(** A caller that refreshes and then gets the future [Refresh] returned:
    the file system it is left with. *)
Definition refresh_and_get (up : Upstream) (fs : GithubFileSystem)
    : GithubFileSystem :=
  match Refresh up fs with
  | (Raise _, fs) => fs
  | (Ok future, fs) => (Future_Get (G := _Gettable) future fs).2
  end.

End Refresh.

(** [_LoadCredentials]: the two entries of the password store, each
    [None] when the store does not hold it.

    Modelled from the spec: the password store is an object store made by
    an [ObjectStoreCreator], which is not among the sources; it is given
    here by what it holds. *)
Definition _LoadCredentials (password_store : gmap string string)
    : option string * option string :=
  (password_store !! "username", password_store !! "password").

(** [__init__]: the blob store and the stat cache are services that
    outlive the file system, so they come with what they hold; the
    fetcher is built on [_repo_url] and answers as the [Upstream] of each
    call says. *)
Definition init (base_url owner repo : string)
    (password_store : gmap string string)
    (stat_cache : gmap string (option Version))
    (blobstore : gmap (string * string) string) : GithubFileSystem :=
  {| _repo_key := owner +:+ "/" +:+ repo;
     _repo_url := base_url +:+ "/" +:+ owner +:+ "/" +:+ repo;
     _username := (_LoadCredentials password_store).1;
     _password := (_LoadCredentials password_store).2;
     _blobstore := blobstore;
     _stat_cache := stat_cache;
     _repo_zip := None;
     trace := [] |}.

(** [Create]; [url_constants.NEW_GITHUB_URL] is not among the sources and
    is taken as given. *)
Definition Create (NEW_GITHUB_URL owner repo : string)
    (password_store : gmap string string)
    (stat_cache : gmap string (option Version))
    (blobstore : gmap (string * string) string) : GithubFileSystem :=
  init NEW_GITHUB_URL owner repo password_store stat_cache blobstore.

(** [ForTest]; the stores of [ObjectStoreCreator.ForTest()] come with what
    they hold. *)
Definition ForTest (repo : string) (path : option string)
    (password_store : gmap string string)
    (stat_cache : gmap string (option Version))
    (blobstore : gmap (string * string) string) : GithubFileSystem :=
  init (default "test_data/github_file_system" path) "test_owner" repo
    password_store stat_cache blobstore.

(** [GetIdentity]: ['%s(%s)' % (self.__class__.__name__, self._repo_key)] *)
Definition GetIdentity (fs : GithubFileSystem) : string :=
  "GithubFileSystem" +:+ "(" +:+ _repo_key fs +:+ ")".

End New.

(** ** github_file_system.py *)

Module Old.

Definition ZIP_KEY : string := "zipball".

Definition _MakeKey (version : option Version) : string :=
  ZIP_KEY +:+ "." +:+ str_of_version version.

(** An [_AsyncFetchFutureZip]: the fetch started by its constructor, with
    the outcome its [Get] will have, and the two keys.  Its [_blobstore] is
    the blob store of the file system that built it. *)
Record _AsyncFetchFutureZip := {
  _fetch : result string;
  _key_to_set : option Version;
  _key_to_delete : option Version
}.

(** Modelled from the spec: the object store and the blob store are not
    among the sources; the object store maps a key to a value, kept with
    the lifetime it was stored with, and answers [None] for a key it does
    not hold; the blob store maps a key to a payload.  Both are used under
    one namespace only ([GITHUB_STAT], [BLOBSTORE_GITHUB]).

    The record is one [GithubFileSystem] with the services it was given.
    [trace] collects the requests made of the fetcher and the calls of
    [logging]. *)
Record GithubFileSystem := {
  _object_store : gmap string (Version * option nat);
  _blobstore : gmap string string;
  _version : option Version;
  _zip_file : Future _AsyncFetchFutureZip (option ZipFile);
  trace : list event
}.

Definition log (ev : event) (fs : GithubFileSystem) : GithubFileSystem :=
  {| _object_store := _object_store fs; _blobstore := _blobstore fs;
     _version := _version fs; _zip_file := _zip_file fs;
     trace := trace fs ++ [ev] |}.

Definition set_object_store (os : gmap string (Version * option nat))
    (fs : GithubFileSystem) : GithubFileSystem :=
  {| _object_store := os; _blobstore := _blobstore fs;
     _version := _version fs; _zip_file := _zip_file fs;
     trace := trace fs |}.

Definition set_blobstore (bs : gmap string string)
    (fs : GithubFileSystem) : GithubFileSystem :=
  {| _object_store := _object_store fs; _blobstore := bs;
     _version := _version fs; _zip_file := _zip_file fs;
     trace := trace fs |}.

Definition set_version (v : option Version)
    (fs : GithubFileSystem) : GithubFileSystem :=
  {| _object_store := _object_store fs; _blobstore := _blobstore fs;
     _version := v; _zip_file := _zip_file fs;
     trace := trace fs |}.

Definition set_zip_file (f : Future _AsyncFetchFutureZip (option ZipFile))
    (fs : GithubFileSystem) : GithubFileSystem :=
  {| _object_store := _object_store fs; _blobstore := _blobstore fs;
     _version := _version fs; _zip_file := f;
     trace := trace fs |}.

(** [self._object_store.Get(path, object_store.GITHUB_STAT).Get()] *)
Definition object_store_Get (fs : GithubFileSystem) (path : string)
    : option Version :=
  fst <$> _object_store fs !! path.

Definition Stat (up : Upstream) (path : string) (fs : GithubFileSystem)
    : result StatInfo * GithubFileSystem :=
  match object_store_Get fs path with
  | Some version => (Ok (mkStatInfo (Some version) None), fs)
  | None =>
      let fs := log (Fetch "commits/HEAD") fs in
      let store version :=
        match version with
        | Some v =>
            (Ok (mkStatInfo (Some v) None),
             set_object_store (<[path := (v, None)]> (_object_store fs)) fs)
        | None =>
            let fs := log LogWarning fs in
            (Ok (mkStatInfo (Some Zero) None),
             set_object_store (<[path := (Zero, Some 60)]> (_object_store fs)) fs)
        end in
      match commits_HEAD up with
      | Raise e => (Raise e, fs)
      | Ok NotJson => (Raise ValueError, fs)
      | Ok NotAnObject => (Raise (OtherError "AttributeError"), fs)
      | Ok (MissingKey _) => store None
      | Ok (ShaValue version) => store version
      end
  end.

Section Zip.

(** [ZipFile(StringIO(blob))], of Python's [zipfile]. *)
Variable ZipFile_parse : string -> result ZipFile.

Definition AsyncFetchFutureZip_Get (d : _AsyncFetchFutureZip)
    (fs : GithubFileSystem) : result (option ZipFile) * GithubFileSystem :=
  match _fetch d with
  | Raise (FileNotFoundError _) => (Ok None, log LogError fs)
  | Raise e => (Raise e, fs)
  | Ok blob =>
      let fs :=
        set_blobstore (<[_MakeKey (_key_to_set d) := blob]> (_blobstore fs)) fs in
      let fs :=
        match _key_to_delete d with
        | Some key =>
            set_blobstore (delete (_MakeKey (Some key)) (_blobstore fs)) fs
        | None => fs
        end in
      match ZipFile_parse blob with
      | Ok zipfile => (Ok (Some zipfile), fs)
      | Raise BadZipfile => (Ok None, log LogError fs)
      | Raise e => (Raise e, fs)
      end
  end.

#[export] Instance AsyncFetchFutureZip_Gettable
  : Gettable _AsyncFetchFutureZip GithubFileSystem (option ZipFile) :=
  AsyncFetchFutureZip_Get.

Definition _GetZip (up : Upstream) (version : option Version)
    (fs : GithubFileSystem) : result unit * GithubFileSystem :=
  match _blobstore fs !! _MakeKey version with
  | Some blob =>
      match ZipFile_parse blob with
      | Ok zipfile =>
          (Ok tt, set_version version
                    (set_zip_file (FutureValue (Some zipfile)) fs))
      | Raise BadZipfile =>
          let fs :=
            set_blobstore (delete (_MakeKey version) (_blobstore fs)) fs in
          let fs := log LogError fs in
          (Ok tt, set_version version
                    (set_zip_file (FutureValue None) fs))
      | Raise e => (Raise e, fs)
      end
  | None =>
      let d := {| _fetch := zipball up; _key_to_set := version;
                  _key_to_delete := _version fs |} in
      let fs := log (FetchAsync ZIP_KEY) fs in
      (Ok tt, set_version version
                (set_zip_file (FutureDelegate d) fs))
  end.

(** [self._zip_file.Get()]: the future is a field of the file system, and
    its delegate writes to the blob store of the same file system. *)
Definition zip_file_Get (fs : GithubFileSystem)
    : result (option ZipFile) * GithubFileSystem :=
  match Future_Get (G := AsyncFetchFutureZip_Gettable) (_zip_file fs) fs with
  | (r, f, fs) => (r, set_zip_file f fs)
  end.

Definition _ReadFile (path : string) (fs : GithubFileSystem)
    : result string * GithubFileSystem :=
  match zip_file_Get fs with
  | (Raise e, fs) => (Raise e, fs)
  | (Ok None, fs) => (Ok "", log LogError fs)
  | (Ok (Some zip_file), fs) =>
      match namelist zip_file with
      | [] => (Raise IndexError, fs)
      | first :: _ => (read zip_file (init_str first +:+ path), fs)
      end
  end.

(** [[f[len(filenames[0]) - 1:] for f in filenames]]; [filenames[0]] is
    only looked at while iterating, so an empty name list raises nothing. *)
Definition strip_root (filenames : list string) : list string :=
  match filenames with
  | [] => []
  | first :: _ =>
      slice_from (Z.of_nat (String.length first) - 1) <$> filenames
  end.

(** The three comprehensions of [_ListDir]. *)
Definition list_dir (filenames : list string) (path : string) : list string :=
  let filenames := strip_root filenames in
  let filenames :=
    drop_str (String.length path) <$>
      List.filter (fun f => negb (bool_decide (f = path)) && startswith f path)
        filenames in
  List.filter (fun f => bool_decide (count sep (init_str f) = 0)) filenames.

Definition _ListDir (path : string) (fs : GithubFileSystem)
    : result (list string) * GithubFileSystem :=
  match zip_file_Get fs with
  | (Raise e, fs) => (Raise e, fs)
  | (Ok None, fs) => (Ok [], log LogError fs)
  | (Ok (Some zip_file), fs) => (Ok (list_dir (namelist zip_file) path), fs)
  end.

(** The loop of [Read] over [paths], filling the dictionary [result]. *)
Fixpoint Read_loop (paths : list string) (acc : gmap string content)
    (fs : GithubFileSystem) : result (gmap string content) * GithubFileSystem :=
  match paths with
  | [] => (Ok acc, fs)
  | path :: paths' =>
      if endswith_sep path
      then match _ListDir path fs with
           | (Ok names, fs) => Read_loop paths' (<[path := Listing names]> acc) fs
           | (Raise e, fs) => (Raise e, fs)
           end
      else match _ReadFile path fs with
           | (Ok bytes, fs) => Read_loop paths' (<[path := Bytes bytes]> acc) fs
           | (Raise e, fs) => (Raise e, fs)
           end
  end.

Definition Read (up : Upstream) (paths : list string) (fs : GithubFileSystem)
    : result (gmap string content) * GithubFileSystem :=
  match Stat up ZIP_KEY fs with
  | (Raise e, fs) => (Raise e, fs)
  | (Ok info, fs) =>
      let refreshed :=
        if bool_decide (version info <> _version fs)
        then _GetZip up (version info) fs
        else (Ok tt, fs) in
      match refreshed with
      | (Raise e, fs) => (Raise e, fs)
      | (Ok _, fs) => Read_loop paths ∅ fs
      end
  end.

(** [__init__]: [_zip_file] does not exist before [_GetZip] assigns it;
    the value it holds here until then is never read. *)
Definition init (up : Upstream) (object_store : gmap string (Version * option nat))
    (blobstore : gmap string string) : result GithubFileSystem :=
  let fs := {| _object_store := object_store; _blobstore := blobstore;
               _version := None; _zip_file := FutureValue None;
               trace := [] |} in
  match Stat up ZIP_KEY fs with
  | (Raise e, _) => Raise e
  | (Ok info, fs) =>
      match _GetZip up (version info) fs with
      | (Raise e, _) => Raise e
      | (Ok _, fs) => Ok fs
      end
  end.

End Zip.

End Old.

(** ** api_data_source.py *)

Module ApiDataSource.






End ApiDataSource.

(** ** Fixtures *)

(** An archive as github.com serves it: one root directory, named after
    the repository and the commit, above every member. *)
Definition fixture : ZipFile :=
  {| filelist := [("root-1/", ""); ("root-1/a.txt", "alpha");
                  ("root-1/dir/", ""); ("root-1/dir/b.txt", "beta");
                  ("root-1/dir/sub/", ""); ("root-1/dir/sub/c.txt", "gamma");
                  ("root-1/empty/", "")] |}.

(** A second archive, of a later commit. *)
Definition fixture2 : ZipFile :=
  {| filelist := [("root-2/", ""); ("root-2/a.txt", "ALPHA")] |}.

(** An archive that has no entry for its root directory: the first member
    is a file. *)
Definition fixture_flat : ZipFile :=
  {| filelist := [("root-1/a.txt", "alpha"); ("root-1/dir/b.txt", "beta")] |}.

(** Another such archive, with a member two directories down. *)
Definition fixture_deep : ZipFile :=
  {| filelist := [("root-1/a.txt", "alpha"); ("root-1/dir2/zzz/f", "phi")] |}.

(** A stand-in for [zipfile]: two payloads are archives, anything else is
    refused with [BadZipfile]. *)
Definition fixture_parse (blob : string) : result ZipFile :=
  if bool_decide (blob = "PK-fixture") then Ok fixture
  else if bool_decide (blob = "PK-fixture2") then Ok fixture2
  else Raise BadZipfile.

Definition new_fs (zipfile : option ZipFile) (v : option Version)
    : New.GithubFileSystem :=
  {| New._repo_key := "test_owner/repo";
     New._repo_url := "test_data/github_file_system/test_owner/repo";
     New._username := None; New._password := None;
     New._blobstore := ∅;
     New._stat_cache := match v with
                        | Some _ => {["test_owner/repo" := v]}
                        | None => ∅
                        end;
     New._repo_zip := zipfile;
     New.trace := [] |}.

Definition old_fs (zip_file : option ZipFile) (v : Version)
    : Old.GithubFileSystem :=
  {| Old._object_store := {[Old.ZIP_KEY := (v, None)]};
     Old._blobstore := ∅;
     Old._version := Some v;
     Old._zip_file := FutureValue zip_file;
     Old.trace := [] |}.

(** The answers of a fetcher: the repository at ["v1"], the same at
    ["v2"], ["v2"] with an archive that cannot be fetched, ["v2"] with a
    payload that is no archive, and a fetcher that is down. *)
Definition up_v1 : Upstream :=
  {| commits_HEAD := Ok (ShaValue (Some (Sha "v1")));
     zipball := Ok "PK-fixture" |}.
Definition up_v2 : Upstream :=
  {| commits_HEAD := Ok (ShaValue (Some (Sha "v2")));
     zipball := Ok "PK-fixture2" |}.
Definition up_v2_missing : Upstream :=
  {| commits_HEAD := Ok (ShaValue (Some (Sha "v2")));
     zipball := Raise (FileNotFoundError (ArgText "404")) |}.
Definition up_v2_corrupt : Upstream :=
  {| commits_HEAD := Ok (ShaValue (Some (Sha "v2")));
     zipball := Ok "not a zip" |}.
Definition up_down : Upstream :=
  {| commits_HEAD := Raise DownloadError; zipball := Raise DownloadError |}.

(** The old file system as its constructor leaves it when the fetcher
    answers [up_v2_missing] and both stores are empty: the version is
    cached, the archive is still to be fetched. *)
Definition old_unfetched : Old.GithubFileSystem :=
  {| Old._object_store := {[Old.ZIP_KEY := (Sha "v2", None)]};
     Old._blobstore := ∅;
     Old._version := Some (Sha "v2");
     Old._zip_file :=
       FutureDelegate
         {| Old._fetch := Raise (FileNotFoundError (ArgText "404"));
            Old._key_to_set := Some (Sha "v2");
            Old._key_to_delete := None |};
     Old.trace := [Fetch "commits/HEAD"; FetchAsync "zipball"] |}.

(** The old file system built while the fetcher answers [up_v1], after
    its first [Read]: the archive of ["v1"] is fetched, stored and held. *)
Definition old_installed : Old.GithubFileSystem :=
  {| Old._object_store := {[Old.ZIP_KEY := (Sha "v1", None)]};
     Old._blobstore := {["zipball.v1" := "PK-fixture"]};
     Old._version := Some (Sha "v1");
     Old._zip_file := FutureValue (Some fixture);
     Old.trace := [Fetch "commits/HEAD"; FetchAsync "zipball"] |}.

(** The same once the object store has let go of the cached version. *)
Definition old_expired : Old.GithubFileSystem :=
  Old.set_object_store ∅ old_installed.

(** The same when the fetcher answers [up_v2_corrupt]. *)
Definition old_unparsed : Old.GithubFileSystem :=
  {| Old._object_store := {[Old.ZIP_KEY := (Sha "v2", None)]};
     Old._blobstore := ∅;
     Old._version := Some (Sha "v2");
     Old._zip_file :=
       FutureDelegate
         {| Old._fetch := Ok "not a zip";
            Old._key_to_set := Some (Sha "v2");
            Old._key_to_delete := None |};
     Old.trace := [Fetch "commits/HEAD"; FetchAsync "zipball"] |}.

(** ** Words of the documentation *)

(** A refresh against [up] fails: at the version probe, at the fetch of
    the archive, or at the parse of the fetched payload. *)
Definition refresh_fails (parse : string -> result ZipFile) (up : Upstream)
    : Prop :=
  (forall v, commits_HEAD up <> Ok (ShaValue v)) \/
  (exists e, zipball up = Raise e) \/
  (exists blob e, zipball up = Ok blob /\ parse blob = Raise e).


(** What the old file system answers for a path when its handle holds no
    archive. *)
Definition unavailable (path : string) : content :=
  if endswith_sep path then Listing [] else Bytes "".

(** [q] is the first file path of the batch [paths] whose entry
    [prefix + q] is not among [names]: every file path before it has its
    entry there. *)
Definition first_missing (names : list string) (prefix : string)
    (paths : list string) (q : string) : Prop :=
  exists before after,
    paths = before ++ q :: after /\
    endswith_sep q = false /\
    ((prefix +:+ q) ∉ names) /\
    forall p, p ∈ before -> endswith_sep p = false -> (prefix +:+ p) ∈ names.


(** How often a trace holds the event [ev]. *)
Definition occurrences (ev : event) (tr : list event) : nat :=
  length (List.filter (fun e => bool_decide (e = ev)) tr).

(** An outcome of the new [Read] as the old [Read] words it: the old file
    system lets the [KeyError] of the archive out where the new one wraps
    it in a [FileNotFoundError]. *)
Definition unwrapped {A : Type} (r : result A) : result A :=
  match r with
  | Raise (FileNotFoundError (ArgKeyError name)) => Raise (KeyError name)
  | _ => r
  end.

(** The handle gives no archive, now and from now on. *)
Definition gives_no_archive (parse : string -> result ZipFile)
    (fs : Old.GithubFileSystem) : Prop :=
  exists fs1, Old.zip_file_Get parse fs = (Ok None, fs1) /\
              Old._zip_file fs1 = FutureValue None.

(** ** Immediate children *)

(** A listed name is an immediate child when it is not empty and holds no
    separator except, possibly, as its last character (a subdirectory). *)
Definition immediate_child (n : string) : Prop :=
  n <> "" /\ forall i, String.get i n = Some sep -> S i = String.length n.

(** Among the names [trimmed] of a snapshot, stripped of the root, the
    directory [p] has a file child: a name that extends [p] by a non-empty
    part without any separator. *)
Definition has_file_child (trimmed : list string) (p : string) : Prop :=
  exists f, f ∈ trimmed /\ startswith f p = true /\ f <> p /\
            contains sep (drop_str (String.length p) f) = false.

(** * Properties *)

(** ** Strings *)

Lemma app_cons (c : ascii) (s t : string) :
  String c s +:+ t = String c (s +:+ t).
Proof. reflexivity. Qed.

Lemma startswith_cons (c d : ascii) (s t : string) :
  startswith (String d s) (String c t) = bool_decide (c = d) && startswith s t.
Proof. reflexivity. Qed.

Lemma startswith_split (s t : string) :
  startswith s t = true -> s = t +:+ drop_str (String.length t) s.
Proof.
  revert s. induction t as [|c t IH]; intros s H.
  - reflexivity.
  - destruct s as [|d s]; [discriminate|].
    rewrite startswith_cons in H.
    apply andb_prop in H as [Hc Hs].
    apply bool_decide_eq_true in Hc. subst d.
    cbn [String.length drop_str]. rewrite app_cons. f_equal. now apply IH.
Qed.

Lemma app_empty_r (s : string) : s +:+ "" = s.
Proof. induction s as [|c s IH]; [reflexivity|]. rewrite app_cons. now f_equal. Qed.

(** A name that starts with [t] and is not [t] has something after it. *)
Lemma drop_str_nonempty (s t : string) :
  startswith s t = true -> s <> t -> drop_str (String.length t) s <> "".
Proof.
  intros H Hne Hnil. apply Hne.
  rewrite (startswith_split _ _ H), Hnil. apply app_empty_r.
Qed.

Lemma count_contains (c : ascii) (s : string) :
  count c s = 0 <-> contains c s = false.
Proof.
  induction s as [|d s IH]; simpl; [tauto|].
  destruct (bool_decide (d = c)); simpl; [split; [lia|discriminate]|exact IH].
Qed.

(** No separator before the last character: a separator can only be the
    last character. *)
Lemma contains_init_last (s : string) :
  contains sep (init_str s) = false ->
  forall i, String.get i s = Some sep -> S i = String.length s.
Proof.
  induction s as [|c s IH]; intros H i Hi; simpl in *; [discriminate|].
  destruct s as [|d s].
  - destruct i; [reflexivity|]. simpl in Hi. discriminate.
  - simpl in H. apply orb_false_elim in H as [Hc Hs].
    apply bool_decide_eq_false in Hc.
    destruct i as [|i].
    + simpl in Hi. congruence.
    + f_equal. apply IH; [exact Hs|exact Hi].
Qed.

(** ** Archives *)

Lemma foldl_insert_notin (l : list (string * string)) (m : gmap string string)
    (k : string) :
  k ∉ l.*1 ->
  foldl (fun m e => <[e.1 := e.2]> m) m l !! k = m !! k.
Proof.
  revert m. induction l as [|[n b] l IH]; intros m H; simpl; [reflexivity|].
  rewrite fmap_cons in H. apply not_elem_of_cons in H as [Hn Hl].
  rewrite IH by exact Hl. simpl. now rewrite lookup_insert_ne.
Qed.

Lemma foldl_insert_in (l : list (string * string)) (m : gmap string string)
    (k : string) :
  k ∈ l.*1 ->
  exists b, (k, b) ∈ l /\ foldl (fun m e => <[e.1 := e.2]> m) m l !! k = Some b.
Proof.
  revert m. induction l as [|[n b] l IH]; intros m H; simpl.
  - rewrite fmap_nil in H. now apply elem_of_nil in H.
  - destruct (decide (k ∈ l.*1)) as [Hin|Hout].
    + destruct (IH (<[n := b]> m) Hin) as (b' & Hb' & Hl).
      exists b'. split; [apply elem_of_cons; now right|exact Hl].
    + rewrite fmap_cons in H. apply elem_of_cons in H as [->|H]; [|tauto].
      exists b. split; [apply elem_of_cons; now left|].
      rewrite foldl_insert_notin by exact Hout. simpl.
      apply lookup_insert_eq.
Qed.

(** [ZipFile.read] finds a member exactly when its name is listed. *)
Lemma read_listed (z : ZipFile) (name : string) :
  name ∈ namelist z ->
  exists bytes, (name, bytes) ∈ filelist z /\ read z name = Ok bytes.
Proof.
  intros H. destruct (foldl_insert_in (filelist z) ∅ name H) as (b & Hb & Hl).
  exists b. split; [exact Hb|]. unfold read, NameToInfo. now rewrite Hl.
Qed.

Lemma read_unlisted (z : ZipFile) (name : string) :
  name ∉ namelist z -> read z name = Raise (KeyError name).
Proof.
  intros H. unfold read, NameToInfo.
  rewrite (foldl_insert_notin (filelist z) ∅ name H).
  now rewrite lookup_empty.
Qed.

(** ** Reading against a resolved handle *)

(** Getting the value of a handle that already holds one changes
    nothing. *)
Lemma zip_file_Get_value (parse : string -> result ZipFile)
    (fs : Old.GithubFileSystem) (z : option ZipFile) :
  Old._zip_file fs = FutureValue z ->
  Old.zip_file_Get parse fs = (Ok z, fs).
Proof.
  intros H. unfold Old.zip_file_Get. rewrite H. simpl.
  destruct fs; simpl in *. now subst.
Qed.

(** [Read] of the old file system when the cached version is the one the
    handle was built for: no refresh, only the loop. *)
Lemma Old_Read_cached (parse : string -> result ZipFile) (up : Upstream)
    (fs : Old.GithubFileSystem) (v : Version) (paths : list string) :
  Old.object_store_Get fs Old.ZIP_KEY = Some v ->
  Old._version fs = Some v ->
  Old.Read parse up paths fs = Old.Read_loop parse paths ∅ fs.
Proof.
  intros Hc Hv. unfold Old.Read, Old.Stat. rewrite Hc. simpl. rewrite Hv.
  rewrite bool_decide_eq_false_2; [reflexivity|]. intros H. now apply H.
Qed.

(** ** Directory listings *)

Lemma app_assoc_str (a b c : string) : (a +:+ b) +:+ c = a +:+ (b +:+ c).
Proof.
  induction a as [|x a IH]; [reflexivity|].
  rewrite !app_cons. now f_equal.
Qed.

(** What the loop of [trimmed_paths] adds to its accumulator. *)
Lemma trimmed_paths_loop (fp : string) (l acc : list string) (n : string) :
  n ∈ foldl (New.add_trimmed fp) acc l ->
  n ∈ acc \/
  exists f, f ∈ l /\ f <> fp /\
            contains sep (init_str (drop_str (String.length fp) f)) = false /\
            n = drop_str (String.length fp) f.
Proof.
  revert acc. induction l as [|f l IH]; intros acc H; simpl in H.
  - now left.
  - apply IH in H as [H|(g & Hg & Hne & Hc & Hn)].
    + unfold New.add_trimmed in H.
      destruct (contains sep _) eqn:Hc; simpl in H; [now left|].
      destruct (bool_decide (f = fp)) eqn:Hf; simpl in H; [now left|].
      apply elem_of_app in H as [H|H]; [now left|].
      apply list_elem_of_singleton in H. right. exists f.
      apply bool_decide_eq_false in Hf.
      split; [apply elem_of_cons; now left|]. auto.
    + right. exists g. split; [apply elem_of_cons; now right|]. auto.
Qed.

Lemma trimmed_paths_elem (names : list string) (fp n : string) :
  n ∈ New.trimmed_paths names fp ->
  exists f, f ∈ names /\ f = fp +:+ n /\ immediate_child n.
Proof.
  intros H. apply trimmed_paths_loop in H as [H|(f & Hf & Hne & Hc & Hn)].
  - now apply elem_of_nil in H.
  - apply list_elem_of_In, filter_In in Hf as [Hf Hs].
    exists f. split; [now apply list_elem_of_In|]. subst n. split.
    + now apply startswith_split.
    + split; [now apply drop_str_nonempty|now apply contains_init_last].
Qed.

(** Names that are no proper extension of [fp] add nothing. *)
Lemma trimmed_paths_nil (names : list string) (fp : string) :
  (forall n, n ∈ names -> startswith n fp = true -> n = fp) ->
  New.trimmed_paths names fp = [].
Proof.
  intros H. destruct (New.trimmed_paths names fp) as [|n l] eqn:E; [reflexivity|].
  assert (Hn : n ∈ New.trimmed_paths names fp)
    by (rewrite E; apply elem_of_cons; now left).
  apply trimmed_paths_loop in Hn as [Hn|(f & Hf & Hne & _)].
  - now apply elem_of_nil in Hn.
  - apply list_elem_of_In, filter_In in Hf as [Hf Hs].
    apply list_elem_of_In in Hf. now specialize (H f Hf Hs).
Qed.

(** Every listing the loop of [Read] leaves under a directory path was
    there before or is the listing of that path. *)
Lemma New_Read_loop_listing (repo_zip : option ZipFile) (names : list string)
    (prefix : string) (paths : list string) (acc m : gmap string content)
    (p : string) (l : list string) :
  New.Read_loop repo_zip names prefix paths acc = Ok m ->
  m !! p = Some (Listing l) ->
  acc !! p = Some (Listing l) \/ l = New.trimmed_paths names (prefix +:+ p).
Proof.
  revert acc. induction paths as [|path paths IH]; intros acc H Hm; simpl in H.
  - injection H as <-. now left.
  - destruct (endswith_sep path).
    + destruct (IH _ H Hm) as [Hacc|Hl]; [|now right].
      destruct (decide (path = p)) as [->|Hne].
      * rewrite lookup_insert_eq in Hacc. injection Hacc as <-. now right.
      * rewrite lookup_insert_ne in Hacc by exact Hne. now left.
    + destruct (New.read_entry repo_zip (prefix +:+ path)) as [bytes|e];
        [|discriminate].
      destruct (IH _ H Hm) as [Hacc|Hl]; [|now right].
      destruct (decide (path = p)) as [->|Hne].
      * rewrite lookup_insert_eq in Hacc. discriminate.
      * rewrite lookup_insert_ne in Hacc by exact Hne. now left.
Qed.




(** ** Stat of the new file system *)

Lemma child_paths_loop_sound (version0 : option Version) (path : string)
    (l : list string) (acc : gmap string StatInfo)
    (name : string) (info : StatInfo) :
  foldl (New.add_child version0 path) acc l !! name = Some info ->
  acc !! name = Some info \/
  (info = mkStatInfo version0 None /\
   exists f, f ∈ l /\ f <> path /\
             contains sep (drop_str (String.length path) f) = false /\
             name = drop_str (String.length path) f).
Proof.
  revert acc. induction l as [|f l IH]; intros acc H; simpl in H.
  - now left.
  - apply IH in H as [H|(Hi & g & Hg & Hrest)].
    + unfold New.add_child in H.
      destruct (contains sep _) eqn:Hc; simpl in H; [now left|].
      destruct (bool_decide (f = path)) eqn:Hf; simpl in H; [now left|].
      apply bool_decide_eq_false in Hf.
      destruct (decide (drop_str (String.length path) f = name)) as [E|E].
      * rewrite E, lookup_insert_eq in H. injection H as <-.
        right. split; [reflexivity|]. exists f.
        split; [apply elem_of_cons; now left|]. auto.
      * rewrite lookup_insert_ne in H by exact E. now left.
    + right. split; [exact Hi|]. exists g.
      split; [apply elem_of_cons; now right|exact Hrest].
Qed.

Lemma child_paths_loop_keeps (version0 : option Version) (path : string)
    (l : list string) (acc : gmap string StatInfo)
    (name : string) :
  acc !! name = Some (mkStatInfo version0 None) ->
  foldl (New.add_child version0 path) acc l !! name = Some (mkStatInfo version0 None).
Proof.
  revert acc. induction l as [|f l IH]; intros acc H; simpl; [exact H|].
  apply IH. unfold New.add_child.
  destruct (negb _ && negb _); [|exact H].
  destruct (decide (drop_str (String.length path) f = name)) as [E|E].
  - rewrite E. apply lookup_insert_eq.
  - now rewrite lookup_insert_ne.
Qed.

Lemma child_paths_loop_complete (version0 : option Version) (path : string)
    (l : list string) (acc : gmap string StatInfo)
    (f : string) :
  f ∈ l -> f <> path ->
  contains sep (drop_str (String.length path) f) = false ->
  foldl (New.add_child version0 path) acc l !! drop_str (String.length path) f
    = Some (mkStatInfo version0 None).
Proof.
  revert acc. induction l as [|g l IH]; intros acc Hf Hne Hc.
  - now apply elem_of_nil in Hf.
  - apply elem_of_cons in Hf as [<-|Hf]; [|now apply IH].
    simpl. apply child_paths_loop_keeps. unfold New.add_child.
    rewrite Hc, bool_decide_eq_false_2 by exact Hne. simpl.
    apply lookup_insert_eq.
Qed.

Lemma child_paths_sound (v : option Version) (trimmed : list string)
    (path name : string) (info : StatInfo) :
  New.child_paths v trimmed path !! name = Some info ->
  info = mkStatInfo v None /\ has_file_child trimmed path.
Proof.
  intros H. apply child_paths_loop_sound in H as [H|(Hi & f & Hf & Hne & Hc & _)].
  - rewrite lookup_empty in H. discriminate.
  - split; [exact Hi|]. apply list_elem_of_In, filter_In in Hf as [Hf Hs].
    exists f. split; [now apply list_elem_of_In|]. auto.
Qed.

Lemma child_paths_nonempty (v : option Version) (trimmed : list string)
    (path : string) :
  size (New.child_paths v trimmed path) <> 0 <-> has_file_child trimmed path.
Proof.
  rewrite map_size_ne_0_lookup. split.
  - intros (name & info & H). now apply child_paths_sound in H.
  - intros (f & Hf & Hs & Hne & Hc).
    exists (drop_str (String.length path) f). eexists.
    apply child_paths_loop_complete; [|exact Hne|exact Hc].
    apply list_elem_of_In, filter_In. split; [now apply list_elem_of_In|exact Hs].
Qed.

(** What [Stat] answers when it answers. *)
Lemma Stat_Ok (fs : New.GithubFileSystem) (p : string) (info : StatInfo) :
  New.Stat fs p = Ok info ->
  exists trimmed,
    New.trim (New._GetNamelist fs) = Ok trimmed /\ p ∈ trimmed /\
    version info = New._GetVersion fs /\
    child_versions info =
      (let children :=
         if endswith_sep p
         then New.child_paths (New._GetVersion fs) trimmed p else ∅ in
       if bool_decide (size children = 0) then None else Some children).
Proof.
  unfold New.Stat. intros H.
  destruct (New.trim (New._GetNamelist fs)) as [trimmed|e]; [|discriminate].
  exists trimmed. split; [reflexivity|].
  destruct (bool_decide (p ∈ trimmed)) eqn:Hin; [|discriminate].
  apply bool_decide_eq_true in Hin. injection H as <-. auto.
Qed.

(** C6: all paths stated against one snapshot report one version, and so
    does every child listed for a directory. *)
Theorem Stat_single_version (fs : New.GithubFileSystem) (p q : string)
    (sp sq : StatInfo) :
  New.Stat fs p = Ok sp ->
  New.Stat fs q = Ok sq ->
  version sp = version sq /\
  forall (children : gmap string StatInfo) (name : string) (child : StatInfo),
    child_versions sp = Some children ->
    children !! name = Some child ->
    version child = version sp.
Proof.
  intros Hp Hq.
  apply Stat_Ok in Hp as (tp & _ & _ & Hvp & Hcp).
  apply Stat_Ok in Hq as (tq & _ & _ & Hvq & _).
  split; [congruence|].
  intros children name child Hc Hl. rewrite Hc in Hcp. cbv zeta in Hcp.
  destruct (bool_decide _); [discriminate|]. injection Hcp as ->.
  destruct (endswith_sep p).
  - apply child_paths_sound in Hl as [-> _]. now rewrite Hvp.
  - rewrite lookup_empty in Hl. discriminate.
Qed.

Lemma Stat_single_version_witness :
  New.Stat (new_fs (Some fixture) (Some (Sha "v1"))) "/dir/"
    = Ok (mkStatInfo (Some (Sha "v1"))
            (Some {["b.txt" := mkStatInfo (Some (Sha "v1")) None]})) /\
  New.Stat (new_fs (Some fixture) (Some (Sha "v1"))) "/a.txt"
    = Ok (mkStatInfo (Some (Sha "v1")) None) /\
  version (mkStatInfo (Some (Sha "v1"))
             (Some {["b.txt" := mkStatInfo (Some (Sha "v1")) None]}))
    = version (mkStatInfo (Some (Sha "v1")) None).
Proof.
  assert (Hp : New.Stat (new_fs (Some fixture) (Some (Sha "v1"))) "/dir/"
               = Ok (mkStatInfo (Some (Sha "v1"))
                       (Some {["b.txt" := mkStatInfo (Some (Sha "v1")) None]})))
    by (vm_compute; reflexivity).
  assert (Hq : New.Stat (new_fs (Some fixture) (Some (Sha "v1"))) "/a.txt"
               = Ok (mkStatInfo (Some (Sha "v1")) None))
    by (vm_compute; reflexivity).
  split; [exact Hp|]. split; [exact Hq|].
  exact (proj1 (Stat_single_version _ _ _ _ _ Hp Hq)).
Defined.

(** C8, as the code has it: the [StatInfo] that [Stat] returns for [p]
    carries child versions exactly when [p] ends with the separator and
    the snapshot holds a file directly below [p]; a directory without one
    (empty, or holding subdirectories only) is stated with
    [child_versions] left at [None]. *)
Theorem Stat_child_versions (fs : New.GithubFileSystem) (p : string)
    (info : StatInfo) (trimmed : list string) :
  New.trim (New._GetNamelist fs) = Ok trimmed ->
  New.Stat fs p = Ok info ->
  (is_Some (child_versions info) <->
   endswith_sep p = true /\ has_file_child trimmed p).
Proof.
  intros Ht HS. apply Stat_Ok in HS as (t & Ht' & _ & _ & Hc).
  rewrite Ht in Ht'. injection Ht' as <-. rewrite Hc. cbv zeta.
  destruct (endswith_sep p).
  - destruct (bool_decide _) eqn:Hsz.
    + apply bool_decide_eq_true in Hsz. split.
      * intros [x Hx]. discriminate.
      * intros [_ Hchild].
        apply (child_paths_nonempty (New._GetVersion fs)) in Hchild. tauto.
    + apply bool_decide_eq_false in Hsz. split; [|eauto].
      intros _. split; [reflexivity|].
      exact (proj1 (child_paths_nonempty _ _ _) Hsz).
  - rewrite map_size_empty. rewrite bool_decide_eq_true_2 by reflexivity.
    split; [intros [x Hx]; discriminate|intros [H _]; discriminate].
Qed.

Lemma Stat_child_versions_witness :
  New.trim (New._GetNamelist (new_fs (Some fixture) (Some (Sha "v1"))))
    = Ok ["/"; "/a.txt"; "/dir/"; "/dir/b.txt"; "/dir/sub/";
          "/dir/sub/c.txt"; "/empty/"] /\
  New.Stat (new_fs (Some fixture) (Some (Sha "v1"))) "/dir/"
    = Ok (mkStatInfo (Some (Sha "v1"))
            (Some {["b.txt" := mkStatInfo (Some (Sha "v1")) None]})) /\
  endswith_sep "/dir/" = true /\
  has_file_child ["/"; "/a.txt"; "/dir/"; "/dir/b.txt"; "/dir/sub/";
                  "/dir/sub/c.txt"; "/empty/"] "/dir/".
Proof.
  assert (Ht : New.trim (New._GetNamelist
                           (new_fs (Some fixture) (Some (Sha "v1"))))
               = Ok ["/"; "/a.txt"; "/dir/"; "/dir/b.txt"; "/dir/sub/";
                     "/dir/sub/c.txt"; "/empty/"]) by reflexivity.
  assert (HS : New.Stat (new_fs (Some fixture) (Some (Sha "v1"))) "/dir/"
               = Ok (mkStatInfo (Some (Sha "v1"))
                       (Some {["b.txt" := mkStatInfo (Some (Sha "v1")) None]})))
    by (vm_compute; reflexivity).
  split; [exact Ht|]. split; [exact HS|].
  apply (proj1 (Stat_child_versions _ _ _ _ Ht HS)). simpl. eauto.
Defined.

(** An empty directory is stated without child versions although its path
    ends with the separator. *)
Lemma Stat_child_versions_counterexample :
  endswith_sep "/empty/" = true /\
  New.Stat (new_fs (Some fixture) (Some (Sha "v1"))) "/empty/"
    = Ok (mkStatInfo (Some (Sha "v1")) None) /\
  ~ (forall (fs : New.GithubFileSystem) (p : string) (info : StatInfo),
        New.Stat fs p = Ok info ->
        (is_Some (child_versions info) <-> endswith_sep p = true)).
Proof.
  assert (HS : New.Stat (new_fs (Some fixture) (Some (Sha "v1"))) "/empty/"
               = Ok (mkStatInfo (Some (Sha "v1")) None))
    by (vm_compute; reflexivity).
  split; [reflexivity|]. split; [exact HS|].
  intros H. destruct (proj2 (H _ _ _ HS) eq_refl) as [x Hx]. discriminate.
Qed.

(** ** Missing files *)

Lemma ReadFile_value (parse : string -> result ZipFile)
    (fs : Old.GithubFileSystem) (z : ZipFile) (first : string)
    (rest : list string) (path : string) :
  Old._zip_file fs = FutureValue (Some z) ->
  namelist z = first :: rest ->
  Old._ReadFile parse path fs = (read z (init_str first +:+ path), fs).
Proof.
  intros Hzip Hnames. unfold Old._ReadFile.
  rewrite (zip_file_Get_value parse fs _ Hzip). now rewrite Hnames.
Qed.

(** The loop of the old [Read] against a handle that holds no archive:
    every path is answered, with nothing. *)
Lemma Old_Read_loop_unavailable (parse : string -> result ZipFile)
    (paths : list string) (acc : gmap string content)
    (fs : Old.GithubFileSystem) :
  Old._zip_file fs = FutureValue None ->
  exists m fs',
    Old.Read_loop parse paths acc fs = (Ok m, fs') /\
    Old._zip_file fs' = FutureValue None /\
    Old._blobstore fs' = Old._blobstore fs /\
    Old._object_store fs' = Old._object_store fs /\
    Old._version fs' = Old._version fs /\
    (forall p, p ∈ paths -> m !! p = Some (unavailable p)) /\
    (forall p, p ∉ paths -> m !! p = acc !! p).
Proof.
  revert acc fs. induction paths as [|path paths IH]; intros acc fs Hzip.
  - exists acc, fs. split; [reflexivity|]. repeat split; try assumption.
    + intros p Hp. now apply elem_of_nil in Hp.
  - assert (Hlog : Old._zip_file (Old.log LogError fs) = FutureValue None)
      by exact Hzip.
    assert (Hstep : forall c,
              c = unavailable path ->
              exists m fs',
                Old.Read_loop parse paths (<[path:=c]> acc) (Old.log LogError fs)
                  = (Ok m, fs') /\
                Old._zip_file fs' = FutureValue None /\
                Old._blobstore fs' = Old._blobstore fs /\
                Old._object_store fs' = Old._object_store fs /\
                Old._version fs' = Old._version fs /\
                (forall p, p ∈ path :: paths -> m !! p = Some (unavailable p)) /\
                (forall p, p ∉ path :: paths -> m !! p = acc !! p)).
    { intros c Hc.
      destruct (IH (<[path:=c]> acc) _ Hlog)
        as (m & fs' & HR & Hz & Hb & Ho & Hv & Hin & Hout).
      exists m, fs'. split; [exact HR|]. split; [exact Hz|].
      split; [exact Hb|]. split; [exact Ho|]. split; [exact Hv|]. split.
      - intros p Hp. destruct (decide (p ∈ paths)) as [Hp'|Hp']; [now apply Hin|].
        apply elem_of_cons in Hp as [->|Hp]; [|contradiction].
        rewrite (Hout _ Hp'), lookup_insert_eq. now subst c.
      - intros p Hp. apply not_elem_of_cons in Hp as [Hne Hp].
        rewrite (Hout _ Hp). now rewrite lookup_insert_ne. }
    cbn [Old.Read_loop]. unfold unavailable in Hstep.
    destruct (endswith_sep path).
    + unfold Old._ListDir. rewrite (zip_file_Get_value parse fs _ Hzip).
      now apply Hstep.
    + unfold Old._ReadFile. rewrite (zip_file_Get_value parse fs _ Hzip).
      now apply Hstep.
Qed.

(** ** Futures *)

Lemma Get_times_resolved {D W V : Type} {G : Gettable D W V} (n : nat)
    (r : result V) (w : W) :
  Get_times n (resolved r) w = (replicate n r, resolved r, w).
Proof.
  induction n as [|n IH]; [reflexivity|].
  cbn [Get_times]. destruct r as [v|e]; cbn [resolved Future_Get] in *;
    now rewrite IH.
Qed.

Lemma Future_Get_delegate {D W V : Type} {G : Gettable D W V} (d : D) (w : W) :
  Future_Get (FutureDelegate d) w
    = ((Get d w).1, resolved (Get d w).1, (Get d w).2).
Proof.
  unfold Future_Get. now destruct (Get d w) as [[v|e] w'].
Qed.

(** C9: a future built from a delegate, resolved twice or more, gives the
    outcome of the delegate every time, the world ends as one run of the
    delegate leaves it, and the count of delegate runs has gone up by
    exactly one. *)
Theorem Future_resolves_once {D W V : Type} {G : Gettable D W V}
    (d : D) (w : W) (calls n : nat) :
  Get_times (S (S n)) (FutureDelegate (Counted d)) (w, calls)
    = (replicate (S (S n)) (Get d w).1,
       resolved (Get d w).1,
       ((Get d w).2, S calls)).
Proof.
  cbn [Get_times]. rewrite Future_Get_delegate.
  unfold Get at 1 2 3, counted_Gettable. cbn [counted_delegate fst snd].
  destruct (Get d w) as [r w']. cbn [fst snd].
  pose proof (Get_times_resolved (G := counted_Gettable (G := G))
                (S n) r (w', S calls)) as H.
  cbn [Get_times] in H.
  destruct (Future_Get (resolved r) (w', S calls)) as [[r1 f1] w1].
  destruct (Get_times n f1 w1) as [[rs f2] w2].
  injection H as -> -> -> ->. reflexivity.
Qed.

(** ** Refreshing the new file system *)

(** [persist_fetch] either installs a parsed archive or leaves the blob
    store, the stat cache and the current archive alone. *)
Lemma persist_fetch_cases (parse : string -> result ZipFile)
    (cl : New.persist_fetch_closure) (fs : New.GithubFileSystem) :
  (exists blob zipfile,
      New.cl_fetch cl = Ok blob /\ parse blob = Ok zipfile /\
      New.persist_fetch parse cl fs
        = (Ok tt, New.install (New.cl_repo_zip_url cl) blob zipfile
                    (New.cl_version cl) fs)) \/
  (New._blobstore (New.persist_fetch parse cl fs).2 = New._blobstore fs /\
   New._stat_cache (New.persist_fetch parse cl fs).2 = New._stat_cache fs /\
   New._repo_zip (New.persist_fetch parse cl fs).2 = New._repo_zip fs).
Proof.
  unfold New.persist_fetch.
  destruct (New.cl_fetch cl) as [blob|e].
  - destruct (parse blob) as [zipfile|e] eqn:Hparse.
    + left. now exists blob, zipfile.
    + right. now destruct e.
  - right. now destruct e.
Qed.

Lemma Refresh_keeps (up : Upstream) (fs : New.GithubFileSystem) :
  New._blobstore (New.Refresh up fs).2 = New._blobstore fs /\
  New._stat_cache (New.Refresh up fs).2 = New._stat_cache fs /\
  New._repo_zip (New.Refresh up fs).2 = New._repo_zip fs /\
  New._repo_url (New.Refresh up fs).2 = New._repo_url fs.
Proof.
  unfold New.Refresh, New._FetchLiveVersion.
  destruct (commits_HEAD up) as [[| | |v]|e]; cbn; auto.
  destruct (bool_decide _); cbn; auto.
Qed.

(** The future [Refresh] returns holds the archive fetch of that moment. *)
Lemma Refresh_future (up : Upstream) (fs : New.GithubFileSystem)
    (cl : New.persist_fetch_closure) :
  (New.Refresh up fs).1 = Ok (FutureDelegate cl) ->
  New.cl_fetch cl = zipball up /\
  commits_HEAD up = Ok (ShaValue (New.cl_version cl)) /\
  New.cl_repo_zip_url cl = New._repo_url fs +:+ "/zipball".
Proof.
  unfold New.Refresh, New._FetchLiveVersion.
  destruct (commits_HEAD up) as [[| | |v]|e]; cbn; try discriminate.
  destruct (bool_decide _); cbn; [|discriminate].
  intros H. injection H as <-. auto.
Qed.

(** C2, as the code has it.  The new file system writes the blob, and the
    version, only after the payload has parsed: a payload that does not
    parse leaves the blob store and the stat cache as they were.  The old
    file system stores the payload under the key of its version before it
    parses it, so a payload that does not parse is in the blob store
    after the fetch, provided that the key of the version to delete, if
    there is one, is another key than the one just set; a later
    [_GetZip] for that version finds the blob unparsable, deletes it and
    sets the handle to no archive. *)
Theorem blob_written_after_parse (parse : string -> result ZipFile)
    (blob : string) (e : exn) :
  parse blob = Raise e ->
  (forall (cl : New.persist_fetch_closure) (fs : New.GithubFileSystem),
      New.cl_fetch cl = Ok blob ->
      New._blobstore (New.persist_fetch parse cl fs).2 = New._blobstore fs /\
      New._stat_cache (New.persist_fetch parse cl fs).2 = New._stat_cache fs) /\
  (forall (up : Upstream) (fs : New.GithubFileSystem),
      zipball up = Ok blob ->
      New._blobstore (New.refresh_and_get parse up fs) = New._blobstore fs /\
      New._stat_cache (New.refresh_and_get parse up fs) = New._stat_cache fs) /\
  (forall (d : Old._AsyncFetchFutureZip) (fs : Old.GithubFileSystem),
      Old._fetch d = Ok blob ->
      (forall key, Old._key_to_delete d = Some key ->
                   Old._MakeKey (Some key) <> Old._MakeKey (Old._key_to_set d)) ->
      Old._blobstore (Old.AsyncFetchFutureZip_Get parse d fs).2
        !! Old._MakeKey (Old._key_to_set d) = Some blob) /\
  (forall (up : Upstream) (fs : Old.GithubFileSystem) (v : option Version),
      e = BadZipfile ->
      Old._blobstore fs !! Old._MakeKey v = Some blob ->
      Old._blobstore (Old._GetZip parse up v fs).2 !! Old._MakeKey v = None /\
      Old._zip_file (Old._GetZip parse up v fs).2 = FutureValue None).
Proof.
  intros Hparse. split; [|split; [|split]].
  - intros cl fs Hfetch.
    destruct (persist_fetch_cases parse cl fs)
      as [(b & z & Hb & Hz & _)|(Hbs & Hsc & _)]; [|auto].
    rewrite Hfetch in Hb. injection Hb as <-. congruence.
  - intros up fs Hzip. unfold New.refresh_and_get.
    pose proof (Refresh_keeps up fs) as (Hb & Hs & _).
    pose proof (Refresh_future up fs) as Hfut.
    destruct (New.Refresh up fs) as [[future|e'] fs1]; cbn [snd] in *;
      [|auto].
    destruct future as [[]|cl|e']; [cbn; auto| |cbn; auto].
    destruct (Hfut cl eq_refl) as (Hfetch & _).
    rewrite Future_Get_delegate. cbn [snd].
    destruct (persist_fetch_cases parse cl fs1)
      as [(b & z & Hb' & Hz & _)|(Hbs & Hsc & _)].
    + rewrite Hfetch, Hzip in Hb'. injection Hb' as <-. congruence.
    + unfold Get, New._Gettable. split; congruence.
  - intros d fs Hfetch Hkeys. unfold Old.AsyncFetchFutureZip_Get.
    rewrite Hfetch, Hparse.
    assert (Hstored :
      Old._blobstore
        (match Old._key_to_delete d with
         | Some key =>
             Old.set_blobstore
               (delete (Old._MakeKey (Some key))
                  (Old._blobstore
                     (Old.set_blobstore
                        (<[Old._MakeKey (Old._key_to_set d):=blob]>
                           (Old._blobstore fs)) fs)))
               (Old.set_blobstore
                  (<[Old._MakeKey (Old._key_to_set d):=blob]>
                     (Old._blobstore fs)) fs)
         | None =>
             Old.set_blobstore
               (<[Old._MakeKey (Old._key_to_set d):=blob]> (Old._blobstore fs))
               fs
         end) !! Old._MakeKey (Old._key_to_set d) = Some blob).
    { destruct (Old._key_to_delete d) as [key|]; cbn.
      - rewrite lookup_delete_ne by (now apply Hkeys).
        apply lookup_insert_eq.
      - apply lookup_insert_eq. }
    now destruct e.
  - intros up fs v -> Hblob. unfold Old._GetZip. rewrite Hblob, Hparse. cbn.
    split; [apply lookup_delete_eq|reflexivity].
Qed.

Lemma blob_written_after_parse_witness :
  fixture_parse "not a zip" = Raise BadZipfile /\
  New._blobstore
    (New.refresh_and_get fixture_parse up_v2_corrupt
       (new_fs (Some fixture) (Some (Sha "v1"))))
    = New._blobstore (new_fs (Some fixture) (Some (Sha "v1"))) /\
  New._stat_cache
    (New.refresh_and_get fixture_parse up_v2_corrupt
       (new_fs (Some fixture) (Some (Sha "v1"))))
    = New._stat_cache (new_fs (Some fixture) (Some (Sha "v1"))).
Proof.
  split; [reflexivity|].
  destruct (blob_written_after_parse fixture_parse "not a zip" BadZipfile
              eq_refl) as (_ & HR & _).
  exact (HR up_v2_corrupt (new_fs (Some fixture) (Some (Sha "v1"))) eq_refl).
Defined.

(** The old file system, built while the fetcher serves a payload that is
    no archive: the first [Read] fetches the payload and stores it under
    the key of its version although it does not parse. *)
Lemma blob_written_after_parse_counterexample :
  fixture_parse "not a zip" = Raise BadZipfile /\
  Old.init fixture_parse up_v2_corrupt ∅ ∅ = Ok old_unparsed /\
  Old._blobstore old_unparsed !! "zipball.v2" = None /\
  (Old.Read fixture_parse up_v2_corrupt ["/a.txt"] old_unparsed).1
    = Ok {["/a.txt" := Bytes ""]} /\
  Old._blobstore (Old.Read fixture_parse up_v2_corrupt ["/a.txt"] old_unparsed).2
    !! "zipball.v2" = Some "not a zip".
Proof.
  split; [reflexivity|]. split; [vm_compute; reflexivity|].
  split; [reflexivity|]. split; vm_compute; reflexivity.
Qed.

(** ** Failing refreshes *)

(** The new [Read] looks at nothing but the current archive. *)
Lemma New_Read_ext (fs fs' : New.GithubFileSystem) (paths : list string) :
  New._repo_zip fs' = New._repo_zip fs ->
  New.Read fs' paths = New.Read fs paths.
Proof. intros H. unfold New.Read, New._GetNamelist. now rewrite H. Qed.

Lemma refresh_fails_keeps (parse : string -> result ZipFile) (up : Upstream)
    (fs : New.GithubFileSystem) :
  refresh_fails parse up ->
  New._repo_zip (New.refresh_and_get parse up fs) = New._repo_zip fs.
Proof.
  intros Hfail. unfold New.refresh_and_get.
  pose proof (Refresh_keeps up fs) as (_ & _ & Hz & _).
  pose proof (Refresh_future up fs) as Hfut.
  destruct (New.Refresh up fs) as [[future|e'] fs1]; cbn [snd] in *;
    [|exact Hz].
  destruct future as [[]|cl|e']; [exact Hz| |exact Hz].
  destruct (Hfut cl eq_refl) as (Hfetch & Hhead & _).
  rewrite Future_Get_delegate. cbn [snd].
  destruct (persist_fetch_cases parse cl fs1)
    as [(b & z & Hb & Hp & _)|(_ & _ & Hkeep)].
  - exfalso. rewrite Hfetch in Hb.
    destruct Hfail as [Hprobe|[[e Hf]|(blob & e & Hf & He)]].
    + exact (Hprobe _ Hhead).
    + congruence.
    + rewrite Hf in Hb. injection Hb as <-. congruence.
  - unfold Get, New._Gettable. congruence.
Qed.

(** [Stat] of the old file system writes to the object store and the
    trace only. *)
Lemma Old_Stat_keeps (up : Upstream) (path : string)
    (fs : Old.GithubFileSystem) :
  Old._blobstore (Old.Stat up path fs).2 = Old._blobstore fs /\
  Old._version (Old.Stat up path fs).2 = Old._version fs /\
  Old._zip_file (Old.Stat up path fs).2 = Old._zip_file fs.
Proof.
  unfold Old.Stat. destruct (Old.object_store_Get fs path); [auto|].
  destruct (commits_HEAD up) as [[| | |[v|]]|e]; cbn; auto.
Qed.

Lemma Old_Read_loop_no_archive (parse : string -> result ZipFile)
    (paths : list string) (acc : gmap string content)
    (fs : Old.GithubFileSystem) :
  gives_no_archive parse fs ->
  exists m fs',
    Old.Read_loop parse paths acc fs = (Ok m, fs') /\
    (paths <> [] -> Old._zip_file fs' = FutureValue None) /\
    (forall p, p ∈ paths -> m !! p = Some (unavailable p)) /\
    (forall p, p ∉ paths -> m !! p = acc !! p).
Proof.
  intros (fs1 & HG & Hz1). destruct paths as [|path paths].
  - exists acc, fs. split; [reflexivity|]. split; [congruence|]. split; [|auto].
    intros p Hp. now apply elem_of_nil in Hp.
  - assert (Hlog : Old._zip_file (Old.log LogError fs1) = FutureValue None)
      by exact Hz1.
    assert (Hstep : forall c,
              c = unavailable path ->
              exists m fs',
                Old.Read_loop parse paths (<[path:=c]> acc) (Old.log LogError fs1)
                  = (Ok m, fs') /\
                (path :: paths <> [] -> Old._zip_file fs' = FutureValue None) /\
                (forall p, p ∈ path :: paths -> m !! p = Some (unavailable p)) /\
                (forall p, p ∉ path :: paths -> m !! p = acc !! p)).
    { intros c Hc.
      destruct (Old_Read_loop_unavailable parse paths (<[path:=c]> acc) _ Hlog)
        as (m & fs' & HR & Hz & _ & _ & _ & Hin & Hout).
      exists m, fs'. split; [exact HR|]. split; [auto|]. split.
      - intros p Hp. destruct (decide (p ∈ paths)) as [Hp'|Hp']; [now apply Hin|].
        apply elem_of_cons in Hp as [->|Hp]; [|contradiction].
        rewrite (Hout _ Hp'), lookup_insert_eq. now subst c.
      - intros p Hp. apply not_elem_of_cons in Hp as [Hne Hp].
        rewrite (Hout _ Hp). now rewrite lookup_insert_ne. }
    cbn [Old.Read_loop]. unfold unavailable in Hstep.
    destruct (endswith_sep path).
    + unfold Old._ListDir. rewrite HG. now apply Hstep.
    + unfold Old._ReadFile. rewrite HG. now apply Hstep.
Qed.

(** A fetch that ends in [FileNotFoundError], or in a payload that is no
    archive, makes the delegate answer [None]. *)
Lemma delegate_gives_no_archive (parse : string -> result ZipFile)
    (fs : Old.GithubFileSystem) (d : Old._AsyncFetchFutureZip) :
  Old._zip_file fs = FutureDelegate d ->
  (exists a, Old._fetch d = Raise (FileNotFoundError a)) \/
  (exists blob, Old._fetch d = Ok blob /\ parse blob = Raise BadZipfile) ->
  gives_no_archive parse fs.
Proof.
  intros Hzip Hfail. unfold gives_no_archive, Old.zip_file_Get.
  rewrite Hzip, Future_Get_delegate.
  unfold Get, Old.AsyncFetchFutureZip_Gettable, Old.AsyncFetchFutureZip_Get.
  destruct Hfail as [[a ->]|(blob & -> & ->)]; cbn; eauto.
Qed.

(** C1, as the code has it.  In the new file system a refresh that fails
    at the version probe, at the fetch of the archive or at its parse
    leaves the current archive in place, and every [Read] after it answers
    as before.  The old file system replaces its handle as soon as [Read]
    obtains a version other than the one the handle was built for and the
    blob store holds no blob of that version; when the fetch then ends in
    [FileNotFoundError], or the payload is no archive, the handle holds no
    archive and [Read] answers every path with nothing. *)
Theorem refresh_failure (parse : string -> result ZipFile) (up : Upstream)
    (paths : list string) :
  refresh_fails parse up ->
  (forall fs : New.GithubFileSystem,
      New._repo_zip (New.refresh_and_get parse up fs) = New._repo_zip fs /\
      New.Read (New.refresh_and_get parse up fs) paths = New.Read fs paths) /\
  (forall (fs : Old.GithubFileSystem) (info : StatInfo),
      (Old.Stat up Old.ZIP_KEY fs).1 = Ok info ->
      version info <> Old._version fs ->
      Old._blobstore fs !! Old._MakeKey (version info) = None ->
      (exists a, zipball up = Raise (FileNotFoundError a)) \/
      (exists blob, zipball up = Ok blob /\ parse blob = Raise BadZipfile) ->
      exists m fs',
        Old.Read parse up paths fs = (Ok m, fs') /\
        (paths <> [] -> Old._zip_file fs' = FutureValue None) /\
        (forall p, p ∈ paths -> m !! p = Some (unavailable p))).
Proof.
  intros Hfail. split.
  - intros fs. pose proof (refresh_fails_keeps parse up fs Hfail) as Hz.
    split; [exact Hz|now apply New_Read_ext].
  - intros fs info HS Hver Hblob Hzip. unfold Old.Read.
    pose proof (Old_Stat_keeps up Old.ZIP_KEY fs) as (Hb & Hv & _).
    destruct (Old.Stat up Old.ZIP_KEY fs) as [r fs1]. cbn [fst snd] in *.
    subst r. rewrite Hv, bool_decide_eq_true_2 by exact Hver.
    unfold Old._GetZip. rewrite Hb, Hblob.
    match goal with
    | |- context [Old.Read_loop parse paths ∅ ?fs2] =>
        destruct (Old_Read_loop_no_archive parse paths ∅ fs2)
          as (m & fs' & HR & Hz & Hin & _)
    end.
    + eapply delegate_gives_no_archive; [reflexivity|exact Hzip].
    + exists m, fs'. split; [exact HR|]. split; [exact Hz|exact Hin].
Qed.

Lemma refresh_failure_witness :
  refresh_fails fixture_parse up_v2_corrupt /\
  New.Read (New.refresh_and_get fixture_parse up_v2_corrupt
              (new_fs (Some fixture) (Some (Sha "v1")))) ["/a.txt"]
    = Ok {["/a.txt" := Bytes "alpha"]} /\
  exists m fs',
    Old.Read fixture_parse up_v2_corrupt ["/a.txt"] old_expired = (Ok m, fs') /\
    (["/a.txt"] <> [] -> Old._zip_file fs' = FutureValue None) /\
    (forall p, p ∈ ["/a.txt"] -> m !! p = Some (unavailable p)).
Proof.
  assert (Hfail : refresh_fails fixture_parse up_v2_corrupt).
  { right. right. exists "not a zip", BadZipfile. split; reflexivity. }
  destruct (refresh_failure fixture_parse up_v2_corrupt ["/a.txt"] Hfail)
    as [HN HO].
  split; [exact Hfail|]. split.
  - rewrite (proj2 (HN (new_fs (Some fixture) (Some (Sha "v1"))))).
    vm_compute. reflexivity.
  - apply (HO old_expired (mkStatInfo (Some (Sha "v2")) None)).
    + vm_compute. reflexivity.
    + discriminate.
    + vm_compute. reflexivity.
    + right. exists "not a zip". split; reflexivity.
Defined.

(** The old file system holds the archive of ["v1"] and has served
    ["/a.txt"] from it.  Its cached version expires, the repository moves
    to ["v2"], and the archive of ["v2"] cannot be fetched: [Read] answers
    ["/a.txt"] with the empty string, and keeps doing so when the fetcher
    is well again. *)
Lemma refresh_failure_counterexample :
  (exists fs0,
      Old.init fixture_parse up_v1 ∅ ∅ = Ok fs0 /\
      Old.Read fixture_parse up_v1 ["/a.txt"] fs0
        = (Ok {["/a.txt" := Bytes "alpha"]}, old_installed)) /\
  refresh_fails fixture_parse up_v2_missing /\
  (Old.Read fixture_parse up_v2_missing ["/a.txt"] old_expired).1
    = Ok {["/a.txt" := Bytes ""]} /\
  (Old.Read fixture_parse up_v2 ["/a.txt"]
     (Old.Read fixture_parse up_v2_missing ["/a.txt"] old_expired).2).1
    = Ok {["/a.txt" := Bytes ""]}.
Proof.
  split; [|split; [|split]].
  - eexists. split; vm_compute; reflexivity.
  - right. left. eexists. reflexivity.
  - vm_compute. reflexivity.
  - vm_compute. reflexivity.
Qed.

(** ** Probes and fetches *)

Lemma occurrences_app (ev : event) (tr tr' : list event) :
  occurrences ev (tr ++ tr') = occurrences ev tr + occurrences ev tr'.
Proof. unfold occurrences. now rewrite List.filter_app, length_app. Qed.

Lemma occurrences_log (ev e : event) (fs : Old.GithubFileSystem) :
  occurrences ev (Old.trace (Old.log e fs))
    = occurrences ev (Old.trace fs) + (if bool_decide (e = ev) then 1 else 0).
Proof.
  cbn [Old.log Old.trace]. rewrite occurrences_app. f_equal.
  unfold occurrences. cbn. now destruct (bool_decide (e = ev)).
Qed.

(** Getting the handle logs errors at most. *)
Lemma zip_file_Get_trace (parse : string -> result ZipFile) (ev : event)
    (fs : Old.GithubFileSystem) :
  ev <> LogError ->
  occurrences ev (Old.trace (Old.zip_file_Get parse fs).2)
    = occurrences ev (Old.trace fs).
Proof.
  intros Hev. unfold Old.zip_file_Get.
  assert (Hno : (if bool_decide (LogError = ev) then 1 else 0) = 0)
    by (rewrite bool_decide_eq_false_2; congruence).
  destruct (Old._zip_file fs) as [v|d|e]; [reflexivity| |reflexivity].
  rewrite Future_Get_delegate. cbn [snd Old.set_zip_file Old.trace].
  unfold Get, Old.AsyncFetchFutureZip_Gettable, Old.AsyncFetchFutureZip_Get.
  destruct (Old._fetch d) as [blob|e].
  - assert (Hsame : forall fs0,
              Old.trace
                (match Old._key_to_delete d with
                 | Some key =>
                     Old.set_blobstore
                       (delete (Old._MakeKey (Some key)) (Old._blobstore fs0)) fs0
                 | None => fs0
                 end) = Old.trace fs0)
      by (intros fs0; now destruct (Old._key_to_delete d)).
    destruct (parse blob) as [z|e]; cbn [snd].
    + now rewrite Hsame.
    + destruct e; cbn [snd]; rewrite ?occurrences_log, ?Hsame, ?Hno;
        cbn [Old.set_blobstore Old.trace]; lia.
  - destruct e; cbn [snd]; rewrite ?occurrences_log, ?Hno; lia.
Qed.

Lemma Old_Read_loop_trace (parse : string -> result ZipFile) (ev : event)
    (paths : list string) (acc : gmap string content)
    (fs : Old.GithubFileSystem) :
  ev <> LogError ->
  occurrences ev (Old.trace (Old.Read_loop parse paths acc fs).2)
    = occurrences ev (Old.trace fs).
Proof.
  intros Hev. revert acc fs.
  assert (Hno : (if bool_decide (LogError = ev) then 1 else 0) = 0)
    by (rewrite bool_decide_eq_false_2; congruence).
  induction paths as [|path paths IH]; intros acc fs; [reflexivity|].
  cbn [Old.Read_loop].
  pose proof (zip_file_Get_trace parse ev fs Hev) as HG.
  destruct (endswith_sep path).
  - unfold Old._ListDir.
    destruct (Old.zip_file_Get parse fs) as [[[z|]|e] fs1]; cbn [snd] in *.
    + now rewrite IH.
    + rewrite IH, occurrences_log, Hno. lia.
    + exact HG.
  - unfold Old._ReadFile.
    destruct (Old.zip_file_Get parse fs) as [[[z|]|e] fs1]; cbn [snd] in *.
    + destruct (namelist z) as [|first rest]; [exact HG|].
      destruct (read z _); [now rewrite IH|exact HG].
    + rewrite IH, occurrences_log, Hno. lia.
    + exact HG.
Qed.

(** [Stat] of the old file system starts no archive fetch. *)
Lemma Old_Stat_no_fetch (up : Upstream) (path : string)
    (fs : Old.GithubFileSystem) :
  occurrences (FetchAsync "zipball") (Old.trace (Old.Stat up path fs).2)
    = occurrences (FetchAsync "zipball") (Old.trace fs).
Proof.
  unfold Old.Stat. destruct (Old.object_store_Get fs path); [reflexivity|].
  destruct (commits_HEAD up) as [[| | |[v|]]|e];
    cbn [snd Old.set_object_store Old.trace];
    rewrite ?occurrences_log; cbn [bool_decide decide_rel]; 
    rewrite ?bool_decide_eq_false_2 by discriminate; lia.
Qed.

(** C5, as the code has it.  The old [Read] takes the version from
    [Stat], which answers from the version cache whenever the cache holds
    a version and probes the fetcher only when it holds none; [Read]
    starts an archive fetch exactly when that version differs from the
    one the current handle was built for and the blob store holds no blob
    of that version.  The new [Refresh] probes the fetcher on every call;
    a fetch it starts carries the probed version, and a failed probe
    starts none. *)
Theorem version_check (parse : string -> result ZipFile) (up : Upstream)
    (paths : list string) (fs : Old.GithubFileSystem)
    (nfs : New.GithubFileSystem) :
  (forall v, Old.object_store_Get fs Old.ZIP_KEY = Some v ->
             Old.Stat up Old.ZIP_KEY fs = (Ok (mkStatInfo (Some v) None), fs)) /\
  (Old.object_store_Get fs Old.ZIP_KEY = None ->
   occurrences (Fetch "commits/HEAD")
     (Old.trace (Old.Stat up Old.ZIP_KEY fs).2)
     = S (occurrences (Fetch "commits/HEAD") (Old.trace fs))) /\
  (forall info,
      (Old.Stat up Old.ZIP_KEY fs).1 = Ok info ->
      occurrences (FetchAsync "zipball")
        (Old.trace (Old.Read parse up paths fs).2)
        = occurrences (FetchAsync "zipball") (Old.trace fs)
          + (if bool_decide
                  (version info <> Old._version fs /\
                   Old._blobstore fs !! Old._MakeKey (version info) = None)
             then 1 else 0)) /\
  occurrences (Fetch "commits/HEAD") (New.trace (New.Refresh up nfs).2)
    = S (occurrences (Fetch "commits/HEAD") (New.trace nfs)) /\
  (forall cl, (New.Refresh up nfs).1 = Ok (FutureDelegate cl) ->
              commits_HEAD up = Ok (ShaValue (New.cl_version cl)) /\
              New.cl_fetch cl = zipball up) /\
  ((forall v, commits_HEAD up <> Ok (ShaValue v)) ->
   (exists e, (New.Refresh up nfs).1 = Raise e) /\
   occurrences (FetchAsync "zipball") (New.trace (New.Refresh up nfs).2)
     = occurrences (FetchAsync "zipball") (New.trace nfs)).
Proof.
  split; [|split; [|split; [|split; [|split]]]].
  - intros v Hc. unfold Old.Stat. now rewrite Hc.
  - intros Hc. unfold Old.Stat. rewrite Hc.
    destruct (commits_HEAD up) as [[| | |[v|]]|e];
      cbn [snd Old.set_object_store Old.trace];
      rewrite ?occurrences_log;
      rewrite ?(bool_decide_eq_false_2 (LogWarning = Fetch "commits/HEAD"))
        by discriminate;
      rewrite ?bool_decide_eq_true_2 by reflexivity; lia.
  - intros info HS. unfold Old.Read.
    pose proof (Old_Stat_keeps up Old.ZIP_KEY fs) as (Hb & Hv & _).
    pose proof (Old_Stat_no_fetch up Old.ZIP_KEY fs) as Ht.
    destruct (Old.Stat up Old.ZIP_KEY fs) as [r fs1]. cbn [fst snd] in *.
    subst r. rewrite Hv, <- Ht.
    assert (Hfa : FetchAsync "zipball" <> LogError) by discriminate.
    destruct (bool_decide (version info <> Old._version fs)) eqn:Hne.
    + apply bool_decide_eq_true in Hne. unfold Old._GetZip. rewrite Hb.
      destruct (Old._blobstore fs !! Old._MakeKey (version info)) as [blob|].
      * rewrite bool_decide_eq_false_2 by (intros [_ H]; discriminate).
        destruct (parse blob) as [z|e].
        -- now rewrite Old_Read_loop_trace, Nat.add_0_r.
        -- destruct e; cbn [snd]; rewrite ?Old_Read_loop_trace by exact Hfa;
             cbn [Old.set_version Old.set_zip_file Old.trace];
             rewrite ?occurrences_log; cbn [Old.set_blobstore Old.trace];
             rewrite ?bool_decide_eq_false_2 by discriminate; lia.
      * rewrite bool_decide_eq_true_2 by (split; [exact Hne|reflexivity]).
        rewrite Old_Read_loop_trace by exact Hfa.
        cbn [Old.set_version Old.set_zip_file Old.trace].
        rewrite occurrences_log.
        now rewrite bool_decide_eq_true_2 by reflexivity.
    + apply bool_decide_eq_false in Hne.
      rewrite bool_decide_eq_false_2 by (intros [H _]; contradiction).
      now rewrite Old_Read_loop_trace, Nat.add_0_r.
  - unfold New.Refresh, New._FetchLiveVersion.
    assert (Hlog : forall ev fs0,
              occurrences ev (New.trace (New.log (Fetch "commits/HEAD") fs0))
              = occurrences ev (New.trace fs0)
                + (if bool_decide (Fetch "commits/HEAD" = ev) then 1 else 0)).
    { intros ev fs0. cbn [New.log New.trace]. rewrite occurrences_app. f_equal.
      unfold occurrences. cbn. now destruct (bool_decide _). }
    destruct (commits_HEAD up) as [[| | |v]|e]; cbn [snd];
      try (rewrite Hlog, bool_decide_eq_true_2 by reflexivity; lia).
    destruct (bool_decide _); cbn [snd];
      [|rewrite Hlog, bool_decide_eq_true_2 by reflexivity; lia].
    cbn [New.log New.trace]. rewrite !occurrences_app.
    unfold occurrences at 2 3. cbn [List.filter].
    rewrite bool_decide_eq_true_2 by reflexivity.
    rewrite bool_decide_eq_false_2 by discriminate. cbn. lia.
  - intros cl Hcl. destruct (Refresh_future up nfs cl Hcl) as (Hf & Hh & _).
    auto.
  - intros Hprobe. unfold New.Refresh, New._FetchLiveVersion.
    assert (Hlog : occurrences (FetchAsync "zipball")
                     (New.trace (New.log (Fetch "commits/HEAD") nfs))
                   = occurrences (FetchAsync "zipball") (New.trace nfs)).
    { cbn [New.log New.trace]. rewrite occurrences_app.
      unfold occurrences at 2. cbn [List.filter].
      rewrite bool_decide_eq_false_2 by discriminate. cbn. lia. }
    destruct (commits_HEAD up) as [[| | |v]|e]; cbn [fst snd];
      try (split; [eauto|exact Hlog]).
    now specialize (Hprobe v).
Qed.

Lemma version_check_witness :
  (Old.Stat up_v2 Old.ZIP_KEY old_expired).1
    = Ok (mkStatInfo (Some (Sha "v2")) None) /\
  occurrences (FetchAsync "zipball")
    (Old.trace (Old.Read fixture_parse up_v2 ["/a.txt"] old_expired).2)
    = occurrences (FetchAsync "zipball") (Old.trace old_expired) + 1 /\
  (Old.Read fixture_parse up_v2 ["/a.txt"] old_expired).1
    = Ok {["/a.txt" := Bytes "ALPHA"]}.
Proof.
  assert (HS : (Old.Stat up_v2 Old.ZIP_KEY old_expired).1
               = Ok (mkStatInfo (Some (Sha "v2")) None)) by reflexivity.
  destruct (version_check fixture_parse up_v2 ["/a.txt"] old_expired
              (new_fs None None)) as (_ & _ & HR & _).
  split; [exact HS|]. split; [|vm_compute; reflexivity].
  rewrite (HR _ HS). f_equal.
Defined.

(** The old file system holds the archive of ["v1"] and the version cache
    still says ["v1"], while a probe of the fetcher would answer ["v2"]:
    [Read] neither probes nor fetches and serves the archive of ["v1"]. *)
Lemma version_check_counterexample :
  commits_HEAD up_v2 = Ok (ShaValue (Some (Sha "v2"))) /\
  Old._version old_installed = Some (Sha "v1") /\
  Old.Read fixture_parse up_v2 ["/a.txt"] old_installed
    = (Ok {["/a.txt" := Bytes "alpha"]}, old_installed) /\
  occurrences (FetchAsync "zipball")
    (Old.trace (Old.Read fixture_parse up_v2 ["/a.txt"] old_installed).2)
    = occurrences (FetchAsync "zipball") (Old.trace old_installed).
Proof.
  split; [reflexivity|]. split; [reflexivity|].
  split; vm_compute; reflexivity.
Qed.

(** * Further properties of the two file systems *)

(** ** Batches *)


(** The same for the old [Read] against a handle that holds an archive. *)
Lemma Old_Read_loop_ok (parse : string -> result ZipFile)
    (fs : Old.GithubFileSystem) (z : ZipFile) (first : string)
    (rest : list string) (paths : list string) (acc : gmap string content) :
  Old._zip_file fs = FutureValue (Some z) ->
  namelist z = first :: rest ->
  (forall p, p ∈ paths -> endswith_sep p = false ->
             (init_str first +:+ p) ∈ namelist z) ->
  exists m,
    Old.Read_loop parse paths acc fs = (Ok m, fs) /\
    (forall p, p ∈ paths ->
       (endswith_sep p = true ->
        m !! p = Some (Listing (Old.list_dir (namelist z) p))) /\
       (endswith_sep p = false ->
        exists bytes, read z (init_str first +:+ p) = Ok bytes /\
                      m !! p = Some (Bytes bytes))) /\
    (forall p, p ∉ paths -> m !! p = acc !! p).
Proof.
  intros Hzip Hnames. revert acc.
  induction paths as [|path paths IH]; intros acc Hall.
  - exists acc. split; [reflexivity|]. split; [|auto].
    intros p Hp. now apply elem_of_nil in Hp.
  - assert (Hall' : forall p, p ∈ paths -> endswith_sep p = false ->
                              (init_str first +:+ p) ∈ namelist z).
    { intros p Hp. apply Hall, elem_of_cons. now right. }
    cbn [Old.Read_loop].
    destruct (endswith_sep path) eqn:Hd.
    + unfold Old._ListDir. rewrite (zip_file_Get_value parse fs _ Hzip).
      destruct (IH (<[path:=Listing (Old.list_dir (namelist z) path)]> acc) Hall')
        as (m & HR & Hin & Hout).
      exists m. split; [exact HR|]. split.
      * intros p Hp. destruct (decide (p ∈ paths)) as [Hp'|Hp']; [now apply Hin|].
        apply elem_of_cons in Hp as [->|Hp]; [|contradiction].
        split; [|congruence]. intros _.
        rewrite (Hout _ Hp'). apply lookup_insert_eq.
      * intros p Hp. apply not_elem_of_cons in Hp as [Hne Hp].
        rewrite (Hout _ Hp). now rewrite lookup_insert_ne.
    + assert (Hlisted : (init_str first +:+ path) ∈ namelist z).
      { apply Hall; [apply elem_of_cons; now left|exact Hd]. }
      destruct (read_listed z _ Hlisted) as (bytes & _ & Hread).
      rewrite (ReadFile_value parse fs z first rest path Hzip Hnames), Hread.
      destruct (IH (<[path:=Bytes bytes]> acc) Hall') as (m & HR & Hin & Hout).
      exists m. split; [exact HR|]. split.
      * intros p Hp. destruct (decide (p ∈ paths)) as [Hp'|Hp']; [now apply Hin|].
        apply elem_of_cons in Hp as [->|Hp]; [|contradiction].
        split; [congruence|]. intros _. exists bytes. split; [exact Hread|].
        rewrite (Hout _ Hp'). apply lookup_insert_eq.
      * intros p Hp. apply not_elem_of_cons in Hp as [Hne Hp].
        rewrite (Hout _ Hp). now rewrite lookup_insert_ne.
Qed.

(** A mapping that answers the paths of a batch and nothing else has the
    batch as its keys. *)
Lemma dom_batch (m : gmap string content) (paths : list string) :
  (forall p, p ∈ paths -> is_Some (m !! p)) ->
  (forall p, p ∉ paths -> m !! p = None) ->
  dom m = list_to_set paths.
Proof.
  intros Hin Hout. apply set_eq. intros p.
  rewrite elem_of_dom, elem_of_list_to_set. split.
  - intros Hs. destruct (decide (p ∈ paths)) as [Hp|Hp]; [exact Hp|].
    rewrite (Hout _ Hp) in Hs. now destruct Hs.
  - apply Hin.
Qed.



(** X2: the same for the old [Read], whose prefix is the first name of
    the archive without its last character.  When its handle holds an
    archive that lists, for every file path [p] of the batch, that prefix
    followed by [p], and the cached version is the one the handle was
    built for, the old [Read] succeeds and leaves the file system as it
    was; the keys of the mapping are the paths of the batch, a directory
    path is mapped to the listing of [_ListDir] and a file path to the
    bytes stored under the prefix followed by the path. *)
Theorem Old_Read_batch (parse : string -> result ZipFile) (up : Upstream)
    (fs : Old.GithubFileSystem) (v : Version) (z : ZipFile)
    (first : string) (rest : list string) (paths : list string) :
  Old._zip_file fs = FutureValue (Some z) ->
  Old.object_store_Get fs Old.ZIP_KEY = Some v ->
  Old._version fs = Some v ->
  namelist z = first :: rest ->
  (forall p, p ∈ paths -> endswith_sep p = false ->
             (init_str first +:+ p) ∈ namelist z) ->
  exists m,
    Old.Read parse up paths fs = (Ok m, fs) /\
    dom m = list_to_set paths /\
    forall p, p ∈ paths ->
      (endswith_sep p = true ->
       m !! p = Some (Listing (Old.list_dir (namelist z) p))) /\
      (endswith_sep p = false ->
       exists bytes, read z (init_str first +:+ p) = Ok bytes /\
                     m !! p = Some (Bytes bytes)).
Proof.
  intros Hzip Hcache Hver Hnames Hall.
  destruct (Old_Read_loop_ok parse fs z first rest paths ∅ Hzip Hnames Hall)
    as (m & HR & Hin & Hout).
  exists m. split; [|split; [|exact Hin]].
  - now rewrite (Old_Read_cached parse up fs v).
  - apply dom_batch.
    + intros p Hp. destruct (Hin p Hp) as [Hd Hf].
      destruct (endswith_sep p); [rewrite Hd; eauto|].
      destruct (Hf eq_refl) as (b & _ & ->). eauto.
    + intros p Hp. now rewrite (Hout p Hp), lookup_empty.
Qed.

Lemma Old_Read_batch_witness :
  Old._zip_file old_installed = FutureValue (Some fixture) /\
  exists m,
    Old.Read fixture_parse up_down ["/a.txt"; "/dir/"; "/a.txt"] old_installed
      = (Ok m, old_installed) /\
    dom m = list_to_set ["/a.txt"; "/dir/"; "/a.txt"].
Proof.
  split; [reflexivity|].
  destruct (Old_Read_batch fixture_parse up_down old_installed (Sha "v1")
              fixture "root-1/" (List.tl (namelist fixture))
              ["/a.txt"; "/dir/"; "/a.txt"]
              eq_refl eq_refl eq_refl eq_refl)
    as (m & HR & Hdom & _).
  - intros p Hp Hfile.
    repeat (apply elem_of_cons in Hp as [->|Hp];
            [first [discriminate Hfile | vm_compute; repeat constructor]|]).
    now apply elem_of_nil in Hp.
  - exists m. split; [exact HR|exact Hdom].
Defined.

(** ** Complete listings *)

Lemma startswith_app (t r : string) : startswith (t +:+ r) t = true.
Proof.
  induction t as [|c t IH]; [now destruct r|].
  rewrite app_cons, startswith_cons, IH.
  now rewrite bool_decide_eq_true_2.
Qed.

Lemma drop_str_app (t r : string) : drop_str (String.length t) (t +:+ r) = r.
Proof. induction t as [|c t IH]; [reflexivity|exact IH]. Qed.

Lemma app_nonempty_ne (t r : string) : r <> "" -> t +:+ r <> t.
Proof.
  intros Hr H. apply Hr. rewrite <- (drop_str_app t r), H.
  clear. induction t; [reflexivity|assumption].
Qed.

Lemma contains_init (c : ascii) (s : string) :
  contains c s = false -> contains c (init_str s) = false.
Proof.
  induction s as [|d s IH]; intros H; [reflexivity|].
  simpl in H. apply orb_false_elim in H as [Hc Hs].
  destruct s as [|e s]; [reflexivity|].
  change (init_str (String d (String e s)))
    with (String d (init_str (String e s))).
  simpl contains at 1. rewrite Hc. simpl. exact (IH Hs).
Qed.

(** A separator that can only be the last character is not among the
    characters before the last. *)
Lemma last_contains_init (s : string) :
  (forall i, String.get i s = Some sep -> S i = String.length s) ->
  contains sep (init_str s) = false.
Proof.
  induction s as [|c s IH]; intros H; [reflexivity|].
  destruct s as [|d s]; [reflexivity|].
  change (init_str (String c (String d s)))
    with (String c (init_str (String d s))).
  simpl contains at 1. apply orb_false_intro.
  - apply bool_decide_eq_false. intros ->.
    specialize (H 0 eq_refl). simpl in H. lia.
  - apply IH. intros i Hi. specialize (H (S i) Hi). simpl in *. lia.
Qed.

Lemma add_trimmed_keeps (fp : string) (l acc : list string) (n : string) :
  n ∈ acc -> n ∈ foldl (New.add_trimmed fp) acc l.
Proof.
  revert acc. induction l as [|f l IH]; intros acc H; [exact H|].
  simpl. apply IH. unfold New.add_trimmed.
  destruct (negb _ && negb _); [|exact H].
  apply elem_of_app. now left.
Qed.

Lemma trimmed_paths_complete (names : list string) (fp n : string) :
  (fp +:+ n) ∈ names -> n <> "" ->
  contains sep (init_str n) = false ->
  n ∈ New.trimmed_paths names fp.
Proof.
  intros Hin Hne Hc. unfold New.trimmed_paths.
  assert (Hf : (fp +:+ n) ∈ List.filter (fun s => startswith s fp) names).
  { apply list_elem_of_In, filter_In.
    split; [now apply list_elem_of_In|apply startswith_app]. }
  revert Hf. generalize (List.filter (fun s => startswith s fp) names).
  generalize (@nil string).
  intros acc l. revert acc. induction l as [|f l IH]; intros acc Hf.
  - now apply elem_of_nil in Hf.
  - apply elem_of_cons in Hf as [<- | Hf]; [|now apply IH].
    simpl. apply add_trimmed_keeps. unfold New.add_trimmed.
    rewrite drop_str_app, Hc.
    rewrite bool_decide_eq_false_2 by (now apply app_nonempty_ne).
    apply elem_of_app. right. now apply list_elem_of_singleton.
Qed.

Lemma list_dir_complete (filenames : list string) (p n : string) :
  (p +:+ n) ∈ Old.strip_root filenames -> n <> "" ->
  contains sep (init_str n) = false ->
  n ∈ Old.list_dir filenames p.
Proof.
  intros Hin Hne Hc. unfold Old.list_dir.
  apply list_elem_of_In, filter_In. split.
  - apply list_elem_of_In, list_elem_of_fmap. exists (p +:+ n).
    split; [now rewrite drop_str_app|].
    apply list_elem_of_In, filter_In. split; [now apply list_elem_of_In|].
    rewrite startswith_app, andb_true_r. apply negb_true_iff.
    apply bool_decide_eq_false. now apply app_nonempty_ne.
  - apply bool_decide_eq_true, count_contains. exact Hc.
Qed.

(** ** What Stat accepts *)

Lemma split1_None (f : string) :
  (split1 f).2 = None <-> contains sep f = false.
Proof.
  induction f as [|c f IH]; [now split|].
  cbn [split1 contains]. destruct (bool_decide (c = sep)); cbn.
  - split; discriminate.
  - destruct (split1 f) as [h t]. exact IH.
Qed.

Lemma split1_Some (f r : string) :
  (split1 f).2 = Some r ->
  f = (split1 f).1 +:+ String sep r /\ contains sep (split1 f).1 = false.
Proof.
  induction f as [|c f IH]; [discriminate|].
  cbn [split1]. destruct (bool_decide (c = sep)) eqn:Hc.
  - apply bool_decide_eq_true in Hc. subst c. cbn.
    intros H. injection H as ->. now split.
  - destruct (split1 f) as [h t]. cbn in *. intros H.
    destruct (IH H) as [Hf Hh]. split.
    + rewrite app_cons. now f_equal.
    + now rewrite Hc.
Qed.

Lemma split1_app (root r : string) :
  contains sep root = false ->
  split1 (root +:+ String sep r) = (root, Some r).
Proof.
  induction root as [|c root IH]; intros H.
  - reflexivity.
  - cbn [contains] in H. apply orb_false_elim in H as [Hc Hr].
    rewrite app_cons. cbn [split1]. rewrite Hc. now rewrite (IH Hr).
Qed.

Lemma trim_missing (names : list string) (f : string) :
  f ∈ names -> contains sep f = false -> New.trim names = Raise IndexError.
Proof.
  induction names as [|g names IH]; intros Hin Hc.
  - now apply elem_of_nil in Hin.
  - cbn [New.trim]. destruct ((split1 g).2) as [r|] eqn:Hg; [|reflexivity].
    apply elem_of_cons in Hin as [-> | Hin].
    + apply split1_None in Hc. congruence.
    + now rewrite (IH Hin Hc).
Qed.

Lemma trim_elem (names trimmed : list string) (q : string) :
  New.trim names = Ok trimmed ->
  (q ∈ trimmed <->
   exists f r, f ∈ names /\ (split1 f).2 = Some r /\ q = String sep r).
Proof.
  revert trimmed. induction names as [|g names IH]; intros trimmed H.
  - injection H as <-. split.
    + intros Hq. now apply elem_of_nil in Hq.
    + intros (f & r & Hf & _). now apply elem_of_nil in Hf.
  - cbn [New.trim] in H. destruct ((split1 g).2) as [r|] eqn:Hg; [|discriminate].
    destruct (New.trim names) as [t|e]; [|discriminate].
    injection H as <-. specialize (IH t eq_refl). split.
    + intros Hq. apply elem_of_cons in Hq as [-> | Hq].
      * exists g, r. split; [apply elem_of_cons; now left|]. auto.
      * apply IH in Hq as (f & r' & Hf & Hr & Hq).
        exists f, r'. split; [apply elem_of_cons; now right|]. auto.
    + intros (f & r' & Hf & Hr & ->). apply elem_of_cons.
      apply elem_of_cons in Hf as [-> | Hf].
      * left. congruence.
      * right. apply IH. eauto.
Qed.

Lemma trim_total (names : list string) :
  (forall f, f ∈ names -> contains sep f = true) ->
  exists trimmed, New.trim names = Ok trimmed.
Proof.
  induction names as [|g names IH]; intros H; [now exists []|].
  cbn [New.trim]. destruct ((split1 g).2) as [r|] eqn:Hg.
  - destruct IH as [t ->]; [|eauto].
    intros f Hf. apply H, elem_of_cons. now right.
  - apply split1_None in Hg. rewrite H in Hg; [discriminate|].
    apply elem_of_cons. now left.
Qed.

(** X4: what the new [Stat] does with a path.  If some name of the
    archive holds no separator, [Stat] raises [IndexError] whatever the
    path.  Otherwise it accepts exactly the paths that are a separator
    followed by what a name of the archive holds after its first
    separator, and raises [FileNotFoundError] for every other path; with
    no archive in hand that is every path. *)
Theorem Stat_outcome (fs : New.GithubFileSystem) (p : string) :
  ((exists f, f ∈ New._GetNamelist fs /\ contains sep f = false) ->
   New.Stat fs p = Raise IndexError) /\
  ((forall f, f ∈ New._GetNamelist fs -> contains sep f = true) ->
   ((exists f root rest,
        f ∈ New._GetNamelist fs /\ f = root +:+ String sep rest /\
        contains sep root = false /\ p = String sep rest) ->
    exists info, New.Stat fs p = Ok info) /\
   (~ (exists f root rest,
          f ∈ New._GetNamelist fs /\ f = root +:+ String sep rest /\
          contains sep root = false /\ p = String sep rest) ->
    New.Stat fs p = Raise (FileNotFoundError (ArgNoStat p)))) /\
  (New._repo_zip fs = None ->
   New.Stat fs p = Raise (FileNotFoundError (ArgNoStat p))).
Proof.
  split; [|split].
  - intros (f & Hf & Hc). unfold New.Stat. now rewrite (trim_missing _ f Hf Hc).
  - intros Hall. destruct (trim_total _ Hall) as [trimmed Ht].
    pose proof (trim_elem _ _ p Ht) as Hel.
    unfold New.Stat. rewrite Ht. split.
    + intros (f & root & rest & Hf & -> & Hroot & ->).
      rewrite bool_decide_eq_true_2; [eauto|].
      apply Hel. exists (root +:+ String sep rest), rest.
      split; [exact Hf|]. now rewrite split1_app.
    + intros Hno. rewrite bool_decide_eq_false_2; [reflexivity|].
      intros Hp. apply Hno. apply Hel in Hp as (f & r & Hf & Hr & ->).
      destruct (split1_Some f r Hr) as [Hfeq Hroot].
      exists f, (split1 f).1, r. auto.
  - intros Hnone. unfold New.Stat, New._GetNamelist. rewrite Hnone. cbn.
    rewrite bool_decide_eq_false_2; [reflexivity|].
    intros H. now apply elem_of_nil in H.
Qed.

Lemma Stat_outcome_witness :
  New.Stat (new_fs (Some {| filelist := [("README", "x")] |}) None) "/README"
    = Raise IndexError /\
  (exists info,
      New.Stat (new_fs (Some fixture) (Some (Sha "v1"))) "/dir/b.txt" = Ok info) /\
  New.Stat (new_fs None None) "/dir/b.txt"
    = Raise (FileNotFoundError (ArgNoStat "/dir/b.txt")).
Proof.
  split; [|split].
  - apply (proj1 (Stat_outcome _ _)). exists "README".
    split; [vm_compute; repeat constructor|reflexivity].
  - apply (proj1 (proj2 (Stat_outcome
                           (new_fs (Some fixture) (Some (Sha "v1")))
                           "/dir/b.txt"))).
    + intros f Hf. vm_compute in Hf.
      repeat (apply elem_of_cons in Hf as [-> | Hf]; [reflexivity|]).
      now apply elem_of_nil in Hf.
    + exists "root-1/dir/b.txt", "root-1", "dir/b.txt".
      split; [vm_compute; repeat constructor|]. auto.
  - now apply (proj2 (proj2 (Stat_outcome (new_fs None None) "/dir/b.txt"))).
Defined.

(** ** The children Stat names *)

Lemma child_paths_lookup (v : option Version) (trimmed : list string)
    (p name : string) :
  is_Some (New.child_paths v trimmed p !! name) <->
  name <> "" /\ contains sep name = false /\ (p +:+ name) ∈ trimmed.
Proof.
  split.
  - intros [info H].
    apply child_paths_loop_sound in H as [H|(_ & f & Hf & Hne & Hc & ->)].
    + rewrite lookup_empty in H. discriminate.
    + apply list_elem_of_In, filter_In in Hf as [Hf Hs].
      split; [now apply drop_str_nonempty|]. split; [exact Hc|].
      rewrite <- (startswith_split _ _ Hs). now apply list_elem_of_In.
  - intros (Hne & Hc & Hin). eexists.
    rewrite <- (drop_str_app p name) at 1.
    apply child_paths_loop_complete.
    + apply list_elem_of_In, filter_In.
      split; [now apply list_elem_of_In|apply startswith_app].
    + now apply app_nonempty_ne.
    + now rewrite drop_str_app.
Qed.

(** X5: the children that the new [Stat] names for a directory are
    exactly the names without separator that, put after the directory
    path, give a name of the snapshot (stripped of its root): the files
    directly in the directory, and no subdirectory. *)
Theorem Stat_children (fs : New.GithubFileSystem) (p : string)
    (info : StatInfo) (trimmed : list string)
    (children : gmap string StatInfo) (name : string) :
  New.trim (New._GetNamelist fs) = Ok trimmed ->
  New.Stat fs p = Ok info ->
  child_versions info = Some children ->
  (is_Some (children !! name) <->
   name <> "" /\ contains sep name = false /\ (p +:+ name) ∈ trimmed).
Proof.
  intros Ht HS Hc. apply Stat_Ok in HS as (t & Ht' & _ & _ & Hc').
  rewrite Ht in Ht'. injection Ht' as <-. rewrite Hc in Hc'. cbv zeta in Hc'.
  destruct (endswith_sep p).
  - destruct (bool_decide _); [discriminate|]. injection Hc' as ->.
    apply child_paths_lookup.
  - rewrite map_size_empty, bool_decide_eq_true_2 in Hc' by reflexivity.
    discriminate.
Qed.

Lemma Stat_children_witness :
  New.Stat (new_fs (Some fixture) (Some (Sha "v1"))) "/dir/"
    = Ok (mkStatInfo (Some (Sha "v1"))
            (Some {["b.txt" := mkStatInfo (Some (Sha "v1")) None]})) /\
  (is_Some (({["b.txt" := mkStatInfo (Some (Sha "v1")) None]}
               : gmap string StatInfo) !! "sub/") <->
   "sub/" <> "" /\ contains sep "sub/" = false /\
   ("/dir/" +:+ "sub/") ∈ ["/"; "/a.txt"; "/dir/"; "/dir/b.txt"; "/dir/sub/";
                          "/dir/sub/c.txt"; "/empty/"]).
Proof.
  assert (HS : New.Stat (new_fs (Some fixture) (Some (Sha "v1"))) "/dir/"
               = Ok (mkStatInfo (Some (Sha "v1"))
                       (Some {["b.txt" := mkStatInfo (Some (Sha "v1")) None]})))
    by (vm_compute; reflexivity).
  split; [exact HS|].
  exact (Stat_children (new_fs (Some fixture) (Some (Sha "v1"))) "/dir/" _
           ["/"; "/a.txt"; "/dir/"; "/dir/b.txt"; "/dir/sub/";
            "/dir/sub/c.txt"; "/empty/"] _ "sub/" eq_refl HS eq_refl).
Defined.

(** ** Stat and Read on one snapshot *)

Lemma split_head_no_sep (s : string) : contains sep (split_head s) = false.
Proof.
  induction s as [|c s IH]; [reflexivity|].
  cbn [split_head]. destruct (bool_decide (c = sep)) eqn:Hc; [reflexivity|].
  cbn [contains]. now rewrite Hc.
Qed.

Lemma app_inv_head_str (a b c : string) : a +:+ b = a +:+ c -> b = c.
Proof.
  induction a as [|x a IH]; [auto|].
  rewrite !app_cons. intros H. injection H as H. auto.
Qed.

Lemma rooted_split (f root : string) :
  startswith f (root +:+ "/") = true ->
  exists r, f = root +:+ String sep r.
Proof.
  intros H. apply startswith_split in H. rewrite app_assoc_str in H.
  eexists. exact H.
Qed.

(** In an archive whose names all start with the root and a separator,
    the names stripped by [Stat] are the names without the root. *)
Lemma trim_rooted (names trimmed : list string) (root q : string) :
  contains sep root = false ->
  (forall f, f ∈ names -> startswith f (root +:+ "/") = true) ->
  New.trim names = Ok trimmed ->
  (q ∈ trimmed <-> (root +:+ q) ∈ names).
Proof.
  intros Hroot Hall Ht. rewrite (trim_elem _ _ q Ht). split.
  - intros (f & r & Hf & Hr & ->).
    destruct (rooted_split _ _ (Hall f Hf)) as [r' ->].
    rewrite (split1_app _ _ Hroot) in Hr. injection Hr as <-. exact Hf.
  - intros Hin.
    destruct (rooted_split _ _ (Hall _ Hin)) as [r Hr].
    apply app_inv_head_str in Hr. subst q.
    exists (root +:+ String sep r), r.
    split; [exact Hin|]. split; [|reflexivity]. now rewrite split1_app.
Qed.

(** X6: [Stat] and [Read] agree on the files of a directory.  In an
    archive whose names all start with the root (the first name up to its
    first separator) and a separator, the children that [Stat] names for
    a directory path are exactly the names without separator in the
    listing that [Read] returns for that path. *)
Theorem Stat_agrees_with_Read (fs : New.GithubFileSystem) (first : string)
    (rest : list string) (p : string) (info : StatInfo)
    (m : gmap string content) (name : string) :
  New._GetNamelist fs = first :: rest ->
  (forall f, f ∈ first :: rest ->
             startswith f (split_head first +:+ "/") = true) ->
  endswith_sep p = true ->
  New.Stat fs p = Ok info ->
  New.Read fs [p] = Ok m ->
  ((exists children,
       child_versions info = Some children /\ is_Some (children !! name)) <->
   (exists l, m !! p = Some (Listing l) /\ name ∈ l /\
              contains sep name = false)).
Proof.
  intros Hnames Hall Hdir HS HR.
  apply Stat_Ok in HS as (trimmed & Ht & _ & _ & Hc).
  rewrite Hdir in Hc. cbv zeta in Hc. rewrite Hnames in Ht.
  pose proof (fun q => trim_rooted _ _ _ q (split_head_no_sep first) Hall Ht)
    as Hel.
  unfold New.Read in HR. rewrite Hnames in HR. cbn [New.Read_loop] in HR.
  rewrite Hdir in HR. injection HR as <-. rewrite lookup_insert_eq.
  split.
  - intros (children & Hch & Hname). rewrite Hch in Hc.
    destruct (bool_decide _); [discriminate|]. injection Hc as ->.
    apply child_paths_lookup in Hname as (Hne & Hsep & Hin).
    eexists. split; [reflexivity|]. split; [|exact Hsep].
    apply trimmed_paths_complete; [|exact Hne|now apply contains_init].
    rewrite app_assoc_str. now apply Hel.
  - intros (l & Hl & Hin & Hsep). injection Hl as <-.
    apply trimmed_paths_elem in Hin as (f & Hf & -> & Hne & _).
    assert (Hname : is_Some (New.child_paths (New._GetVersion fs) trimmed p
                               !! name)).
    { apply child_paths_lookup. split; [exact Hne|]. split; [exact Hsep|].
      apply Hel. now rewrite <- app_assoc_str. }
    rewrite bool_decide_eq_false_2 in Hc.
    + eexists. split; [exact Hc|exact Hname].
    + apply map_size_ne_0_lookup. destruct Hname as [x Hx]. eauto.
Qed.

Lemma Stat_agrees_with_Read_witness :
  New.Stat (new_fs (Some fixture) (Some (Sha "v1"))) "/dir/"
    = Ok (mkStatInfo (Some (Sha "v1"))
            (Some {["b.txt" := mkStatInfo (Some (Sha "v1")) None]})) /\
  New.Read (new_fs (Some fixture) (Some (Sha "v1"))) ["/dir/"]
    = Ok {["/dir/" := Listing ["b.txt"; "sub/"]]} /\
  exists l,
    ({["/dir/" := Listing ["b.txt"; "sub/"]]} : gmap string content) !! "/dir/"
      = Some (Listing l) /\
    "b.txt" ∈ l /\ contains sep "b.txt" = false.
Proof.
  assert (HS : New.Stat (new_fs (Some fixture) (Some (Sha "v1"))) "/dir/"
               = Ok (mkStatInfo (Some (Sha "v1"))
                       (Some {["b.txt" := mkStatInfo (Some (Sha "v1")) None]})))
    by (vm_compute; reflexivity).
  assert (HR : New.Read (new_fs (Some fixture) (Some (Sha "v1"))) ["/dir/"]
               = Ok {["/dir/" := Listing ["b.txt"; "sub/"]]})
    by (vm_compute; reflexivity).
  split; [exact HS|]. split; [exact HR|].
  apply (proj1 (Stat_agrees_with_Read
                  (new_fs (Some fixture) (Some (Sha "v1"))) "root-1/"
                  (List.tl (namelist fixture)) "/dir/" _ _ "b.txt"
                  eq_refl
                  ltac:(intros f Hf; vm_compute in Hf;
                        repeat (apply elem_of_cons in Hf as [-> | Hf];
                                [reflexivity|]);
                        now apply elem_of_nil in Hf)
                  eq_refl HS HR)).
  eexists. split; [reflexivity|]. vm_compute. eauto.
Defined.

(** ** The life of a refresh *)

Lemma Refresh_keeps_key (up : Upstream) (fs : New.GithubFileSystem) :
  New._repo_key (New.Refresh up fs).2 = New._repo_key fs.
Proof.
  unfold New.Refresh, New._FetchLiveVersion.
  destruct (commits_HEAD up) as [[| | |v]|e]; cbn; auto.
  destruct (bool_decide _); cbn; auto.
Qed.

(** The new [Stat] looks at the current archive, the stat cache and the
    key of the repository only. *)
Lemma New_Stat_ext (fs fs' : New.GithubFileSystem) (p : string) :
  New._repo_zip fs' = New._repo_zip fs ->
  New._stat_cache fs' = New._stat_cache fs ->
  New._repo_key fs' = New._repo_key fs ->
  New.Stat fs' p = New.Stat fs p.
Proof.
  intros Hz Hs Hk.
  unfold New.Stat, New._GetNamelist, New._GetVersion, New.stat_cache_Get.
  now rewrite Hz, Hs, Hk.
Qed.

(** When [Refresh] hands out a future with a delegate, and when not. *)
Lemma Refresh_decides (up : Upstream) (fs : New.GithubFileSystem) :
  (exists cl, (New.Refresh up fs).1 = Ok (FutureDelegate cl)) <->
  (exists v, commits_HEAD up = Ok (ShaValue v) /\
             v <> New.stat_cache_Get fs "stat").
Proof.
  unfold New.Refresh, New._FetchLiveVersion.
  destruct (commits_HEAD up) as [[| | |v]|e]; cbn;
    try (split; [intros [cl H]; discriminate|intros (v & H & _); discriminate]).
  change (New.stat_cache_Get (New.log (Fetch "commits/HEAD") fs) "stat")
    with (New.stat_cache_Get fs "stat").
  destruct (bool_decide (v <> New.stat_cache_Get fs "stat")) eqn:Hd; cbn.
  - apply bool_decide_eq_true in Hd. split; [eauto|]. intros _. eauto.
  - apply bool_decide_eq_false in Hd. split; [intros [cl H]; discriminate|].
    intros (v' & H & Hne). injection H as <-. contradiction.
Qed.

(** X7: [Refresh] by itself installs nothing.  Whatever the fetcher
    answers, [Read] and [Stat] answer after [Refresh] as they did before;
    only getting the future that [Refresh] returned can change them. *)
Theorem Refresh_alone (up : Upstream) (fs : New.GithubFileSystem)
    (paths : list string) (p : string) :
  New.Read (New.Refresh up fs).2 paths = New.Read fs paths /\
  New.Stat (New.Refresh up fs).2 p = New.Stat fs p /\
  New._blobstore (New.Refresh up fs).2 = New._blobstore fs.
Proof.
  pose proof (Refresh_keeps up fs) as (Hb & Hs & Hz & _).
  pose proof (Refresh_keeps_key up fs) as Hk.
  split; [now apply New_Read_ext|]. split; [now apply New_Stat_ext|exact Hb].
Qed.

(** What a successful refresh leaves behind. *)
Lemma refresh_and_get_success (parse : string -> result ZipFile)
    (up : Upstream) (fs : New.GithubFileSystem) (v : option Version)
    (blob : string) (z : ZipFile) :
  commits_HEAD up = Ok (ShaValue v) ->
  v <> New.stat_cache_Get fs "stat" ->
  zipball up = Ok blob ->
  parse blob = Ok z ->
  New.refresh_and_get parse up fs
    = New.install (New._repo_url fs +:+ "/zipball") blob z v
        (New.log (FetchAsync "zipball") (New.log (Fetch "commits/HEAD") fs)).
Proof.
  intros Hhead Hne Hzip Hparse.
  unfold New.refresh_and_get, New.Refresh, New._FetchLiveVersion.
  rewrite Hhead.
  change (New.stat_cache_Get (New.log (Fetch "commits/HEAD") fs) "stat")
    with (New.stat_cache_Get fs "stat").
  rewrite bool_decide_eq_true_2 by exact Hne.
  rewrite Future_Get_delegate.
  unfold Get, New._Gettable, New.persist_fetch. cbn [New.cl_fetch].
  now rewrite Hzip, Hparse.
Qed.

(** X8: a refresh that succeeds.  When the probe answers a version other
    than the one the stat cache holds under ['stat'], the archive is
    fetched and parses, then after [Refresh] and [Get] on its future the
    parsed archive is the current one, the payload is in the blob store
    under the URL of the archive, the version of the repository is the
    probed one, and that is the version every [Stat] reports. *)
Theorem Refresh_installs (parse : string -> result ZipFile) (up : Upstream)
    (fs : New.GithubFileSystem) (v : option Version) (blob : string)
    (z : ZipFile) :
  commits_HEAD up = Ok (ShaValue v) ->
  v <> New.stat_cache_Get fs "stat" ->
  zipball up = Ok blob ->
  parse blob = Ok z ->
  New._repo_zip (New.refresh_and_get parse up fs) = Some z /\
  New._blobstore (New.refresh_and_get parse up fs)
    !! (New._GITHUB_REPOS_NAMESPACE, New._repo_url fs +:+ "/zipball")
    = Some blob /\
  New._GetVersion (New.refresh_and_get parse up fs) = v /\
  forall p info,
    New.Stat (New.refresh_and_get parse up fs) p = Ok info ->
    version info = v.
Proof.
  intros Hhead Hne Hzip Hparse.
  rewrite (refresh_and_get_success parse up fs v blob z) by assumption.
  assert (Hv : New._GetVersion
                 (New.install (New._repo_url fs +:+ "/zipball") blob z v
                    (New.log (FetchAsync "zipball")
                       (New.log (Fetch "commits/HEAD") fs))) = v).
  { unfold New._GetVersion, New.stat_cache_Get. cbn.
    now rewrite lookup_insert_eq. }
  split; [reflexivity|]. split; [cbn; apply lookup_insert_eq|].
  split; [exact Hv|].
  intros p info HS. apply Stat_Ok in HS as (_ & _ & _ & Hi & _). congruence.
Qed.

Lemma Refresh_installs_witness :
  commits_HEAD up_v2 = Ok (ShaValue (Some (Sha "v2"))) /\
  Some (Sha "v2")
    <> New.stat_cache_Get (new_fs (Some fixture) (Some (Sha "v1"))) "stat" /\
  zipball up_v2 = Ok "PK-fixture2" /\
  fixture_parse "PK-fixture2" = Ok fixture2 /\
  New._repo_zip
    (New.refresh_and_get fixture_parse up_v2
       (new_fs (Some fixture) (Some (Sha "v1")))) = Some fixture2.
Proof.
  assert (Hne : Some (Sha "v2")
                <> New.stat_cache_Get (new_fs (Some fixture) (Some (Sha "v1")))
                     "stat") by discriminate.
  split; [reflexivity|]. split; [exact Hne|]. split; [reflexivity|].
  split; [reflexivity|].
  exact (proj1 (Refresh_installs fixture_parse up_v2
                  (new_fs (Some fixture) (Some (Sha "v1")))
                  (Some (Sha "v2")) "PK-fixture2" fixture2
                  eq_refl Hne eq_refl eq_refl)).
Defined.

(** Getting the future of a refresh leaves the stat cache alone under
    every key but the key of the repository. *)
Lemma refresh_and_get_other_keys (parse : string -> result ZipFile)
    (up : Upstream) (fs : New.GithubFileSystem) (key : string) :
  New._repo_key fs <> key ->
  New.stat_cache_Get (New.refresh_and_get parse up fs) key
    = New.stat_cache_Get fs key.
Proof.
  intros Hkey. unfold New.refresh_and_get.
  pose proof (Refresh_keeps up fs) as (_ & Hs & _ & _).
  pose proof (Refresh_keeps_key up fs) as Hk.
  destruct (New.Refresh up fs) as [[future|e] fs1]; cbn [snd] in *;
    [|unfold New.stat_cache_Get; now rewrite Hs].
  destruct future as [[]|cl|e];
    [unfold New.stat_cache_Get; cbn; now rewrite Hs|
    |unfold New.stat_cache_Get; cbn; now rewrite Hs].
  rewrite Future_Get_delegate. cbn [snd].
  destruct (persist_fetch_cases parse cl fs1)
    as [(b & z & _ & _ & Hp)|(_ & Hsc & _)].
  - unfold Get, New._Gettable. rewrite Hp. cbn [snd].
    unfold New.stat_cache_Get. cbn [New.install New._stat_cache].
    rewrite lookup_insert_ne by congruence. now rewrite Hs.
  - unfold Get, New._Gettable, New.stat_cache_Get. now rewrite Hsc, Hs.
Qed.

(** X9: [Refresh] starts a fetch exactly when the probe answers a version
    other than the one the stat cache holds under the key ['stat'].
    Getting the future writes the version under the key of the
    repository, not under ['stat']; so whenever the key of the repository
    is not ['stat'] (it never is for a file system built by [__init__]) a
    refresh that fetched is followed by a refresh that fetches again, as
    long as the fetcher answers the same. *)
Theorem Refresh_fetches_again (parse : string -> result ZipFile)
    (up : Upstream) (fs : New.GithubFileSystem) :
  ((exists cl, (New.Refresh up fs).1 = Ok (FutureDelegate cl)) <->
   (exists v, commits_HEAD up = Ok (ShaValue v) /\
              v <> New.stat_cache_Get fs "stat")) /\
  (New._repo_key fs <> "stat" ->
   (exists cl, (New.Refresh up fs).1 = Ok (FutureDelegate cl)) ->
   exists cl', (New.Refresh up (New.refresh_and_get parse up fs)).1
               = Ok (FutureDelegate cl')) /\
  (forall base_url owner repo password_store stat_cache blobstore,
      New._repo_key (New.init base_url owner repo password_store stat_cache
                       blobstore) <> "stat").
Proof.
  split; [apply Refresh_decides|]. split.
  - intros Hkey Hfirst. apply Refresh_decides.
    apply Refresh_decides in Hfirst as (v & Hhead & Hne).
    exists v. split; [exact Hhead|].
    now rewrite refresh_and_get_other_keys.
  - intros base_url owner repo password_store stat_cache blobstore H.
    cbn [New.init New._repo_key] in H.
    assert (Hc : contains sep (owner +:+ "/" +:+ repo) = true).
    { clear. induction owner as [|c owner IH]; [reflexivity|].
      rewrite app_cons. cbn [contains]. rewrite IH. apply orb_true_r. }
    rewrite H in Hc. discriminate.
Qed.

Lemma Refresh_fetches_again_witness :
  New._repo_key (new_fs (Some fixture) (Some (Sha "v1"))) <> "stat" /\
  (exists cl,
      (New.Refresh up_v2 (new_fs (Some fixture) (Some (Sha "v1")))).1
        = Ok (FutureDelegate cl)) /\
  exists cl',
    (New.Refresh up_v2
       (New.refresh_and_get fixture_parse up_v2
          (new_fs (Some fixture) (Some (Sha "v1"))))).1
      = Ok (FutureDelegate cl').
Proof.
  assert (Hkey : New._repo_key (new_fs (Some fixture) (Some (Sha "v1")))
                 <> "stat") by discriminate.
  assert (Hfirst : exists cl,
             (New.Refresh up_v2 (new_fs (Some fixture) (Some (Sha "v1")))).1
               = Ok (FutureDelegate cl)) by (eexists; reflexivity).
  split; [exact Hkey|]. split; [exact Hfirst|].
  exact (proj1 (proj2 (Refresh_fetches_again fixture_parse up_v2
                         (new_fs (Some fixture) (Some (Sha "v1")))))
           Hkey Hfirst).
Defined.

(** ** Identities *)

Lemma app_inv_last (a b : string) (c : ascii) :
  a +:+ String c "" = b +:+ String c "" -> a = b.
Proof.
  revert b. induction a as [|x a IH]; intros [|y b] H.
  - reflexivity.
  - rewrite app_cons in H. cbn in H. injection H as _ H.
    destruct b; discriminate.
  - rewrite app_cons in H. cbn in H. injection H as _ H.
    destruct a; discriminate.
  - rewrite !app_cons in H. injection H as -> H. f_equal. now apply IH.
Qed.

(** X10: the identity of a file system tells repositories apart: two file
    systems built for owners whose names hold no separator have the same
    identity only if they were built for the same owner and the same
    repository. *)
Theorem GetIdentity_injective (base_url base_url' owner owner' repo repo' : string)
    (password_store password_store' : gmap string string)
    (stat_cache stat_cache' : gmap string (option Version))
    (blobstore blobstore' : gmap (string * string) string) :
  contains sep owner = false ->
  contains sep owner' = false ->
  New.GetIdentity
    (New.init base_url owner repo password_store stat_cache blobstore)
  = New.GetIdentity
      (New.init base_url' owner' repo' password_store' stat_cache' blobstore') ->
  owner = owner' /\ repo = repo'.
Proof.
  intros Ho Ho' H. unfold New.GetIdentity in H.
  cbn [New.init New._repo_key] in H.
  apply (app_inv_head_str "GithubFileSystem") in H.
  apply (app_inv_head_str "(") in H.
  apply app_inv_last in H.
  assert (Hs : split1 (owner +:+ String sep repo)
               = split1 (owner' +:+ String sep repo')) by (f_equal; exact H).
  rewrite !split1_app in Hs by assumption.
  injection Hs as -> ->. now split.
Qed.

Lemma GetIdentity_injective_witness :
  contains sep "GoogleChrome" = false /\
  New.GetIdentity (New.init "https://api.github.com/repos" "GoogleChrome"
                     "chrome-app-samples" ∅ ∅ ∅)
    = "GithubFileSystem(GoogleChrome/chrome-app-samples)" /\
  "GoogleChrome" = "GoogleChrome" /\
  "chrome-app-samples" = "chrome-app-samples".
Proof.
  split; [reflexivity|]. split; [reflexivity|].
  exact (GetIdentity_injective
           "https://api.github.com/repos" "test_data" "GoogleChrome"
           "GoogleChrome" "chrome-app-samples" "chrome-app-samples"
           ∅ ∅ ∅ ∅ ∅ ∅ eq_refl eq_refl eq_refl).
Defined.

(** ** The version cache of the old file system *)

(** X11: the old [Stat] caches what it returns.  Whenever [Stat] returns,
    its result carries a version and no child versions, the object store
    holds that version for the path afterwards, and a following [Stat] of
    the same path returns the same result without asking the fetcher,
    whatever the fetcher would answer by then. *)
Theorem Old_Stat_caches (up up' : Upstream) (path : string)
    (fs fs1 : Old.GithubFileSystem) (info : StatInfo) :
  Old.Stat up path fs = (Ok info, fs1) ->
  (exists v, info = mkStatInfo (Some v) None /\
             Old.object_store_Get fs1 path = Some v) /\
  Old.Stat up' path fs1 = (Ok info, fs1).
Proof.
  intros H.
  assert (Hinfo : exists v, info = mkStatInfo (Some v) None /\
                            Old.object_store_Get fs1 path = Some v).
  { unfold Old.Stat in H.
    destruct (Old.object_store_Get fs path) as [v|] eqn:Hc.
    - injection H as <- <-. eauto.
    - destruct (commits_HEAD up) as [[| | |[v|]]|e]; try discriminate;
        injection H as <- <-; eexists; (split; [reflexivity|]);
        unfold Old.object_store_Get; cbn; now rewrite lookup_insert_eq. }
  split; [exact Hinfo|]. destruct Hinfo as (v & -> & Hc).
  unfold Old.Stat. now rewrite Hc.
Qed.

Lemma Old_Stat_caches_witness :
  Old.Stat up_v2 Old.ZIP_KEY old_expired
    = (Ok (mkStatInfo (Some (Sha "v2")) None),
       Old.set_object_store {[Old.ZIP_KEY := (Sha "v2", None)]}
         (Old.log (Fetch "commits/HEAD") old_expired)) /\
  Old.Stat up_down Old.ZIP_KEY
    (Old.set_object_store {[Old.ZIP_KEY := (Sha "v2", None)]}
       (Old.log (Fetch "commits/HEAD") old_expired))
    = (Ok (mkStatInfo (Some (Sha "v2")) None),
       Old.set_object_store {[Old.ZIP_KEY := (Sha "v2", None)]}
         (Old.log (Fetch "commits/HEAD") old_expired)).
Proof.
  assert (H : Old.Stat up_v2 Old.ZIP_KEY old_expired
              = (Ok (mkStatInfo (Some (Sha "v2")) None),
                 Old.set_object_store {[Old.ZIP_KEY := (Sha "v2", None)]}
                   (Old.log (Fetch "commits/HEAD") old_expired)))
    by (vm_compute; reflexivity).
  split; [exact H|].
  exact (proj2 (Old_Stat_caches up_v2 up_down _ _ _ _ H)).
Defined.

(** X12: what the old [Stat] does when the cache holds nothing for the
    path.  An answer without a sha (the key is missing, or the value is
    null) gives version [0], stored with a lifetime of 60 and logged as a
    warning; an answer with a sha gives that version, stored without
    lifetime; a fetcher that raises, or an answer that is no JSON object,
    makes [Stat] raise and stores nothing, so the next [Stat] asks the
    fetcher again. *)
Theorem Old_Stat_miss (up : Upstream) (path : string)
    (fs : Old.GithubFileSystem) :
  Old.object_store_Get fs path = None ->
  ((forall key, commits_HEAD up = Ok (MissingKey key) \/
                commits_HEAD up = Ok (ShaValue None) ->
      (Old.Stat up path fs).1 = Ok (mkStatInfo (Some Zero) None) /\
      Old._object_store (Old.Stat up path fs).2 !! path
        = Some (Zero, Some 60) /\
      Old.trace (Old.Stat up path fs).2
        = Old.trace fs ++ [Fetch "commits/HEAD"; LogWarning]) /\
   (forall v, commits_HEAD up = Ok (ShaValue (Some v)) ->
      (Old.Stat up path fs).1 = Ok (mkStatInfo (Some v) None) /\
      Old._object_store (Old.Stat up path fs).2 !! path = Some (v, None) /\
      Old.trace (Old.Stat up path fs).2
        = Old.trace fs ++ [Fetch "commits/HEAD"]) /\
   ((forall key, commits_HEAD up <> Ok (MissingKey key)) ->
    (forall v, commits_HEAD up <> Ok (ShaValue v)) ->
    (exists e, (Old.Stat up path fs).1 = Raise e) /\
    Old._object_store (Old.Stat up path fs).2 = Old._object_store fs /\
    Old.trace (Old.Stat up path fs).2
      = Old.trace fs ++ [Fetch "commits/HEAD"])).
Proof.
  intros Hc. unfold Old.Stat. rewrite Hc. split; [|split].
  - intros key [H|H]; rewrite H; cbn; rewrite lookup_insert_eq;
      rewrite <- app_assoc; auto.
  - intros v H. rewrite H. cbn. rewrite lookup_insert_eq. auto.
  - intros Hk Hv.
    destruct (commits_HEAD up) as [[| |key|v]|e]; cbn; eauto.
    + now specialize (Hk key).
    + now specialize (Hv v).
Qed.

Lemma Old_Stat_miss_witness :
  Old.object_store_Get old_expired Old.ZIP_KEY = None /\
  (Old.Stat {| commits_HEAD := Ok (MissingKey "sha"); zipball := Ok "" |}
     Old.ZIP_KEY old_expired).1
    = Ok (mkStatInfo (Some Zero) None).
Proof.
  split; [reflexivity|].
  exact (proj1 (proj1 (Old_Stat_miss
                         {| commits_HEAD := Ok (MissingKey "sha");
                            zipball := Ok "" |}
                         Old.ZIP_KEY old_expired eq_refl)
                  "sha" (or_introl eq_refl))).
Defined.

(** ** Refreshing the old file system *)

(** Once the handle has given its archive, the loop of [Read] runs as it
    does against the resolved handle. *)
Lemma Old_Read_loop_first_get (parse : string -> result ZipFile)
    (fs fs1 : Old.GithubFileSystem) (z : ZipFile) (paths : list string)
    (acc : gmap string content) :
  Old.zip_file_Get parse fs = (Ok (Some z), fs1) ->
  Old._zip_file fs1 = FutureValue (Some z) ->
  paths <> [] ->
  Old.Read_loop parse paths acc fs = Old.Read_loop parse paths acc fs1.
Proof.
  intros HG Hz Hne. destruct paths as [|path paths]; [contradiction|].
  cbn [Old.Read_loop]. unfold Old._ListDir, Old._ReadFile.
  now rewrite HG, (zip_file_Get_value parse fs1 _ Hz).
Qed.

(** The keys of two versions differ as soon as their spellings do. *)
Lemma MakeKey_inj (v w : option Version) :
  Old._MakeKey v = Old._MakeKey w -> str_of_version v = str_of_version w.
Proof.
  unfold Old._MakeKey. intros H.
  apply (app_inv_head_str Old.ZIP_KEY) in H.
  now apply (app_inv_head_str ".") in H.
Qed.

(** What the delegate leaves behind when the fetch gives a payload that
    parses: the handle is resolved, nothing is left under the key of the
    version to delete, and the payload is under the key of the version to
    set unless that is the very key just deleted. *)
Lemma delegate_success (parse : string -> result ZipFile)
    (fs : Old.GithubFileSystem) (d : Old._AsyncFetchFutureZip)
    (blob : string) (z : ZipFile) :
  Old._zip_file fs = FutureDelegate d ->
  Old._fetch d = Ok blob ->
  parse blob = Ok z ->
  exists fs1,
    Old.zip_file_Get parse fs = (Ok (Some z), fs1) /\
    Old._zip_file fs1 = FutureValue (Some z) /\
    Old._version fs1 = Old._version fs /\
    Old._object_store fs1 = Old._object_store fs /\
    Old.trace fs1 = Old.trace fs /\
    (forall k, Old._key_to_delete d = Some k ->
               Old._blobstore fs1 !! Old._MakeKey (Some k) = None) /\
    ((forall k, Old._key_to_delete d = Some k ->
                str_of_version (Some k) <> str_of_version (Old._key_to_set d)) ->
     Old._blobstore fs1 !! Old._MakeKey (Old._key_to_set d) = Some blob).
Proof.
  intros Hzip Hfetch Hparse. unfold Old.zip_file_Get.
  rewrite Hzip, Future_Get_delegate.
  unfold Get, Old.AsyncFetchFutureZip_Gettable, Old.AsyncFetchFutureZip_Get.
  rewrite Hfetch, Hparse. cbn [fst snd resolved].
  eexists. split; [reflexivity|].
  destruct (Old._key_to_delete d) as [k|] eqn:Hk; cbn.
  - repeat split; try reflexivity.
    + intros k' Hk'. injection Hk' as <-. apply lookup_delete_eq.
    + intros Hkeys. rewrite lookup_delete_ne; [apply lookup_insert_eq|].
      intros H. apply MakeKey_inj in H. now apply (Hkeys k).
  - repeat split; try reflexivity.
    + intros k' Hk'. discriminate.
    + intros _. apply lookup_insert_eq.
Qed.

(** X13: a refresh of the old file system that succeeds.  [Read] obtains
    a version other than the one its handle was built for, the blob store
    holds no blob under the key of that version, the fetched payload
    parses, and the new archive lists, for every file path [p] of the
    non-empty batch, its first name without the last character followed
    by [p].  Then [Read] answers the batch from the new archive, the
    handle holds the new archive under the new version, and nothing is
    left in the blob store under the key of the version before.  The
    payload is in the blob store under the key of the new version
    provided that [str] spells the version before otherwise than the new
    one, so that the two keys differ. *)
Theorem Old_Read_refreshes (parse : string -> result ZipFile) (up : Upstream)
    (fs : Old.GithubFileSystem) (info : StatInfo) (blob : string)
    (z : ZipFile) (first : string) (rest paths : list string) :
  (Old.Stat up Old.ZIP_KEY fs).1 = Ok info ->
  version info <> Old._version fs ->
  Old._blobstore fs !! Old._MakeKey (version info) = None ->
  zipball up = Ok blob ->
  parse blob = Ok z ->
  namelist z = first :: rest ->
  paths <> [] ->
  (forall p, p ∈ paths -> endswith_sep p = false ->
             (init_str first +:+ p) ∈ namelist z) ->
  exists m fs',
    Old.Read parse up paths fs = (Ok m, fs') /\
    (forall p, p ∈ paths ->
       (endswith_sep p = true ->
        m !! p = Some (Listing (Old.list_dir (namelist z) p))) /\
       (endswith_sep p = false ->
        exists bytes, read z (init_str first +:+ p) = Ok bytes /\
                      m !! p = Some (Bytes bytes))) /\
    Old._zip_file fs' = FutureValue (Some z) /\
    Old._version fs' = version info /\
    (forall k, Old._version fs = Some k ->
               Old._blobstore fs' !! Old._MakeKey (Some k) = None) /\
    ((forall k, Old._version fs = Some k ->
                str_of_version (Some k) <> str_of_version (version info)) ->
     Old._blobstore fs' !! Old._MakeKey (version info) = Some blob).
Proof.
  intros HS Hver Hblob Hzip Hparse Hnames Hne Hall. unfold Old.Read.
  pose proof (Old_Stat_keeps up Old.ZIP_KEY fs) as (Hb & Hv & _).
  destruct (Old.Stat up Old.ZIP_KEY fs) as [r fs1]. cbn [fst snd] in *.
  subst r. rewrite Hv, bool_decide_eq_true_2 by exact Hver.
  unfold Old._GetZip. rewrite Hb, Hblob.
  match goal with
  | |- context [Old.Read_loop parse paths ∅ ?fs2] =>
      destruct (delegate_success parse fs2
                  {| Old._fetch := zipball up;
                     Old._key_to_set := version info;
                     Old._key_to_delete := Old._version fs1 |} blob z
                  eq_refl Hzip Hparse)
        as (fs3 & HG & Hz3 & Hv3 & _ & _ & Hold & Hnew);
      rewrite (Old_Read_loop_first_get parse fs2 fs3 z paths ∅ HG Hz3 Hne)
  end.
  destruct (Old_Read_loop_ok parse fs3 z first rest paths ∅ Hz3 Hnames Hall)
    as (m & HR & Hin & _).
  exists m, fs3. split; [exact HR|]. split; [exact Hin|].
  split; [exact Hz3|]. split; [exact Hv3|]. split.
  - intros k Hk. apply Hold. cbn. now rewrite Hv.
  - intros Hkeys. apply Hnew. cbn. rewrite Hv. exact Hkeys.
Qed.

Lemma Old_Read_refreshes_witness :
  (Old.Stat up_v2 Old.ZIP_KEY old_expired).1
    = Ok (mkStatInfo (Some (Sha "v2")) None) /\
  zipball up_v2 = Ok "PK-fixture2" /\
  fixture_parse "PK-fixture2" = Ok fixture2 /\
  exists m fs',
    Old.Read fixture_parse up_v2 ["/a.txt"] old_expired = (Ok m, fs') /\
    Old._blobstore fs' !! Old._MakeKey (Some (Sha "v2")) = Some "PK-fixture2" /\
    Old._blobstore fs' !! Old._MakeKey (Some (Sha "v1")) = None.
Proof.
  split; [reflexivity|]. split; [reflexivity|]. split; [reflexivity|].
  destruct (Old_Read_refreshes fixture_parse up_v2 old_expired
              (mkStatInfo (Some (Sha "v2")) None) "PK-fixture2" fixture2
              "root-2/" ["root-2/a.txt"] ["/a.txt"])
    as (m & fs' & HR & _ & _ & _ & Hold & Hnew);
    try reflexivity; try discriminate.
  - intros p Hp _. apply list_elem_of_singleton in Hp as ->.
    vm_compute. repeat constructor.
  - exists m, fs'. split; [exact HR|]. split.
    + apply Hnew. intros k Hk. injection Hk as <-. discriminate.
    + now apply Hold.
Defined.



(** ** A settled file system *)

Lemma Old_Stat_Ok (up : Upstream) (path : string)
    (fs fs1 : Old.GithubFileSystem) (info : StatInfo) :
  Old.Stat up path fs = (Ok info, fs1) ->
  exists v, info = mkStatInfo (Some v) None /\
            Old.object_store_Get fs1 path = Some v.
Proof.
  unfold Old.Stat. intros H.
  destruct (Old.object_store_Get fs path) as [v|] eqn:Hc.
  - injection H as <- <-. eauto.
  - destruct (commits_HEAD up) as [[| | |[v|]]|e]; try discriminate;
      injection H as <- <-; eexists; (split; [reflexivity|]);
      unfold Old.object_store_Get; cbn; now rewrite lookup_insert_eq.
Qed.

Lemma GetZip_Ok (parse : string -> result ZipFile) (up : Upstream)
    (v : option Version) (fs fs2 : Old.GithubFileSystem) :
  Old._GetZip parse up v fs = (Ok tt, fs2) ->
  Old._version fs2 = v /\ Old._object_store fs2 = Old._object_store fs.
Proof.
  unfold Old._GetZip. intros H.
  destruct (Old._blobstore fs !! Old._MakeKey v) as [blob|].
  - destruct (parse blob) as [z|e].
    + injection H as <-. now split.
    + destruct e; try discriminate. injection H as <-. now split.
  - injection H as <-. now split.
Qed.

(** Getting the handle leaves the version and the object store alone. *)
Lemma zip_file_Get_keeps (parse : string -> result ZipFile)
    (fs : Old.GithubFileSystem) :
  Old._version (Old.zip_file_Get parse fs).2 = Old._version fs /\
  Old._object_store (Old.zip_file_Get parse fs).2 = Old._object_store fs.
Proof.
  unfold Old.zip_file_Get.
  destruct (Old._zip_file fs) as [v|d|e]; [now split| |now split].
  rewrite Future_Get_delegate. cbn [snd Old.set_zip_file Old._version
                                     Old._object_store].
  unfold Get, Old.AsyncFetchFutureZip_Gettable, Old.AsyncFetchFutureZip_Get.
  destruct (Old._fetch d) as [blob|e].
  - destruct (Old._key_to_delete d), (parse blob) as [z|[]]; now split.
  - destruct e; now split.
Qed.

Lemma Old_Read_loop_keeps (parse : string -> result ZipFile)
    (paths : list string) (acc : gmap string content)
    (fs : Old.GithubFileSystem) :
  Old._version (Old.Read_loop parse paths acc fs).2 = Old._version fs /\
  Old._object_store (Old.Read_loop parse paths acc fs).2
    = Old._object_store fs.
Proof.
  revert acc fs. induction paths as [|path paths IH]; intros acc fs;
    [now split|].
  cbn [Old.Read_loop].
  pose proof (zip_file_Get_keeps parse fs) as HG.
  destruct (endswith_sep path).
  - unfold Old._ListDir.
    destruct (Old.zip_file_Get parse fs) as [[[z|]|e] fs1]; cbn [snd] in *.
    + destruct (IH (<[path:=Listing (Old.list_dir (namelist z) path)]> acc) fs1)
        as [-> ->]. exact HG.
    + destruct (IH (<[path:=Listing []]> acc) (Old.log LogError fs1))
        as [-> ->]. exact HG.
    + exact HG.
  - unfold Old._ReadFile.
    destruct (Old.zip_file_Get parse fs) as [[[z|]|e] fs1]; cbn [snd] in *.
    + destruct (namelist z) as [|first rest]; [exact HG|].
      destruct (read z _) as [bytes|e]; [|exact HG].
      destruct (IH (<[path:=Bytes bytes]> acc) fs1) as [-> ->]. exact HG.
    + destruct (IH (<[path:=Bytes ""]> acc) (Old.log LogError fs1))
        as [-> ->]. exact HG.
    + exact HG.
Qed.

(** X15: the old file system settles.  After a [Read] that returned a
    mapping, the version of the handle is the version the object store
    holds, so every further [Read] on the file system it left, whatever
    the batch and whatever the fetcher would answer, asks the fetcher
    neither for the version nor for the archive. *)
Theorem Old_Read_settles (parse : string -> result ZipFile)
    (up up' : Upstream) (paths paths' : list string)
    (fs fs' : Old.GithubFileSystem) (m : gmap string content) :
  Old.Read parse up paths fs = (Ok m, fs') ->
  Old.object_store_Get fs' Old.ZIP_KEY = Old._version fs' /\
  occurrences (Fetch "commits/HEAD")
    (Old.trace (Old.Read parse up' paths' fs').2)
    = occurrences (Fetch "commits/HEAD") (Old.trace fs') /\
  occurrences (FetchAsync "zipball")
    (Old.trace (Old.Read parse up' paths' fs').2)
    = occurrences (FetchAsync "zipball") (Old.trace fs').
Proof.
  intros HR.
  assert (Hinv : exists v, Old.object_store_Get fs' Old.ZIP_KEY = Some v /\
                           Old._version fs' = Some v).
  { unfold Old.Read in HR.
    destruct (Old.Stat up Old.ZIP_KEY fs) as [[info|e] fs1] eqn:HS;
      [|discriminate].
    destruct (Old_Stat_Ok _ _ _ _ _ HS) as (v & -> & Hc). cbn [version] in HR.
    exists v.
    assert (Hfs2 : exists fs2,
              Old.Read_loop parse paths ∅ fs2 = (Ok m, fs') /\
              Old._version fs2 = Some v /\
              Old._object_store fs2 = Old._object_store fs1).
    { destruct (bool_decide (Some v <> Old._version fs1)) eqn:Hd.
      - destruct (Old._GetZip parse up (Some v) fs1) as [[[]|e] fs2] eqn:HZ;
          [|discriminate].
        destruct (GetZip_Ok _ _ _ _ _ HZ) as [Hv Ho]. eauto.
      - apply bool_decide_eq_false in Hd.
        exists fs1. split; [exact HR|]. split; [|reflexivity].
        destruct (decide (Some v = Old._version fs1)); [auto|contradiction]. }
    destruct Hfs2 as (fs2 & HL & Hv & Ho).
    pose proof (Old_Read_loop_keeps parse paths ∅ fs2) as [Hv' Ho'].
    rewrite HL in Hv', Ho'. cbn [snd] in *.
    split; [|congruence].
    unfold Old.object_store_Get in *. now rewrite Ho', Ho. }
  destruct Hinv as (v & Hc & Hv). split; [congruence|].
  rewrite (Old_Read_cached parse up' fs' v) by assumption.
  split; apply Old_Read_loop_trace; discriminate.
Qed.

Lemma Old_Read_settles_witness :
  (Old.Read fixture_parse up_v2 ["/a.txt"] old_expired).1
    = Ok {["/a.txt" := Bytes "ALPHA"]} /\
  occurrences (FetchAsync "zipball")
    (Old.trace (Old.Read fixture_parse up_v1 ["/"]
                  (Old.Read fixture_parse up_v2 ["/a.txt"] old_expired).2).2)
    = occurrences (FetchAsync "zipball")
        (Old.trace (Old.Read fixture_parse up_v2 ["/a.txt"] old_expired).2).
Proof.
  split; [vm_compute; reflexivity|].
  refine (proj2 (proj2 (Old_Read_settles fixture_parse up_v2 up_v1
                          ["/a.txt"] ["/"] old_expired _
                          {["/a.txt" := Bytes "ALPHA"]} _))).
  vm_compute. reflexivity.
Defined.

(** ** The two file systems on one archive *)

Lemma length_app_str (a b : string) :
  String.length (a +:+ b) = String.length a + String.length b.
Proof. induction a as [|x a IH]; [reflexivity|]. rewrite app_cons. cbn. now f_equal. Qed.

Lemma drop_str_app_head (a b c : string) :
  drop_str (String.length (a +:+ b)) (a +:+ c) = drop_str (String.length b) c.
Proof. induction a as [|x a IH]; [reflexivity|]. rewrite !app_cons. exact IH. Qed.

Lemma startswith_app_head (a b c : string) :
  startswith (a +:+ c) (a +:+ b) = startswith c b.
Proof.
  induction a as [|x a IH]; [reflexivity|].
  rewrite !app_cons, startswith_cons, IH.
  now rewrite bool_decide_eq_true_2.
Qed.

Lemma init_str_snoc (a : string) (c : ascii) : init_str (a +:+ String c "") = a.
Proof.
  induction a as [|x a IH]; [reflexivity|].
  rewrite app_cons. destruct a as [|y a]; [reflexivity|].
  rewrite app_cons in *.
  change (init_str (String x (String y (a +:+ String c ""))))
    with (String x (init_str (String y (a +:+ String c "")))).
  now rewrite IH.
Qed.

Lemma split_head_app (root r : string) :
  contains sep root = false -> split_head (root +:+ String sep r) = root.
Proof.
  induction root as [|x root IH]; intros H; [reflexivity|].
  cbn [contains] in H. apply orb_false_elim in H as [Hx Hr].
  rewrite app_cons. cbn [split_head]. rewrite Hx. now rewrite (IH Hr).
Qed.

(** Below a root directory that is the first name of the archive, the old
    file system strips the root as the new one matches it. *)
Lemma strip_root_rooted (root : string) (rest : list string) :
  Old.strip_root ((root +:+ "/") :: rest)
    = drop_str (String.length root) <$> ((root +:+ "/") :: rest).
Proof.
  unfold Old.strip_root.
  assert (Hk : forall f,
             slice_from (Z.of_nat (String.length (root +:+ "/")) - 1) f
             = drop_str (String.length root) f).
  { intros f. unfold slice_from. rewrite length_app_str. cbn [String.length].
    destruct (Z.ltb_spec (Z.of_nat (String.length root + 1) - 1) 0) as [H|H];
      [lia|].
    f_equal. lia. }
  apply list_fmap_ext. intros i f _. apply Hk.
Qed.

(** The two listings of one directory, name by name. *)
Lemma listings_agree (root p : string) (l acc : list string) :
  (forall f, f ∈ l -> exists f', f = root +:+ f') ->
  foldl (New.add_trimmed (root +:+ p)) acc
    (List.filter (fun s => startswith s (root +:+ p)) l)
  = acc ++
    List.filter (fun f => bool_decide (count sep (init_str f) = 0))
      (drop_str (String.length p) <$>
         List.filter (fun f => negb (bool_decide (f = p)) && startswith f p)
           (drop_str (String.length root) <$> l)).
Proof.
  revert acc. induction l as [|f l IH]; intros acc Hall.
  - cbn. now rewrite app_nil_r.
  - assert (Hall' : forall g, g ∈ l -> exists g', g = root +:+ g').
    { intros g Hg. apply Hall, elem_of_cons. now right. }
    destruct (Hall f) as [f' ->]; [apply elem_of_cons; now left|].
    cbn [List.filter fmap list_fmap].
    rewrite startswith_app_head, drop_str_app.
    destruct (startswith f' p) eqn:Hs; [|rewrite andb_false_r; now apply IH].
    rewrite andb_true_r. cbn [foldl]. unfold New.add_trimmed at 2.
    rewrite drop_str_app_head.
    rewrite (bool_decide_ext (root +:+ f' = root +:+ p) (f' = p))
      by (split; [apply app_inv_head_str|congruence]).
    destruct (bool_decide (f' = p)) eqn:Hp; cbn [negb].
    + rewrite andb_false_r. now apply IH.
    + rewrite andb_true_r. cbn [fmap list_fmap List.filter].
      destruct (contains sep (init_str (drop_str (String.length p) f')))
        eqn:Hc; cbn [negb].
      * rewrite bool_decide_eq_false_2
          by (rewrite count_contains; congruence).
        now apply IH.
      * rewrite bool_decide_eq_true_2 by (now apply count_contains).
        rewrite IH by exact Hall'. now rewrite <- app_assoc.
Qed.

(** X16: the two file systems answer alike.  On an archive whose first
    name is the root directory (a name without separator, followed by
    one) and whose names all start with it, the old [Read], with that
    archive in hand and no refresh due, returns for every batch what the
    new [Read] returns, except that it lets the [KeyError] of the archive
    out where the new one wraps it in a [FileNotFoundError]. *)
Theorem Old_Read_agrees_with_New (parse : string -> result ZipFile)
    (up : Upstream) (nfs : New.GithubFileSystem) (ofs : Old.GithubFileSystem)
    (v : Version) (z : ZipFile) (root : string) (rest paths : list string) :
  namelist z = (root +:+ "/") :: rest ->
  contains sep root = false ->
  (forall f, f ∈ rest -> startswith f (root +:+ "/") = true) ->
  New._repo_zip nfs = Some z ->
  Old._zip_file ofs = FutureValue (Some z) ->
  Old.object_store_Get ofs Old.ZIP_KEY = Some v ->
  Old._version ofs = Some v ->
  Old.Read parse up paths ofs = (unwrapped (New.Read nfs paths), ofs).
Proof.
  intros Hnames Hroot Hall Hnew Hold Hcache Hver.
  rewrite (Old_Read_cached parse up ofs v) by assumption.
  unfold New.Read, New._GetNamelist. rewrite Hnew, Hnames.
  change (root +:+ "/") with (root +:+ String sep "").
  rewrite (split_head_app root "" Hroot).
  assert (Hrooted : forall f, f ∈ (root +:+ "/") :: rest ->
                              exists f', f = root +:+ f').
  { intros f Hf. apply elem_of_cons in Hf as [-> | Hf]; [eauto|].
    destruct (rooted_split _ _ (Hall f Hf)) as [r ->]. eauto. }
  assert (Hlist : forall p,
             Old.list_dir (namelist z) p
             = New.trimmed_paths ((root +:+ "/") :: rest) (root +:+ p)).
  { intros p. unfold Old.list_dir, New.trimmed_paths.
    rewrite Hnames, strip_root_rooted.
    now rewrite (listings_agree root p _ [] Hrooted). }
  generalize (∅ : gmap string content).
  induction paths as [|path paths IH]; intros acc; [reflexivity|].
  cbn [Old.Read_loop New.Read_loop].
  destruct (endswith_sep path).
  - unfold Old._ListDir. rewrite (zip_file_Get_value parse ofs _ Hold).
    rewrite Hlist. apply IH.
  - rewrite (ReadFile_value parse ofs z (root +:+ "/") rest path Hold Hnames).
    change (root +:+ "/") with (root +:+ String sep "").
    rewrite init_str_snoc. unfold New.read_entry, read.
    destruct (NameToInfo z !! (root +:+ path)) as [bytes|]; [apply IH|].
    reflexivity.
Qed.

Lemma Old_Read_agrees_with_New_witness :
  namelist fixture = ("root-1" +:+ "/") :: List.tl (namelist fixture) /\
  contains sep "root-1" = false /\
  Old.Read fixture_parse up_down ["/dir/"; "/a.txt"; "/zz"] old_installed
    = (unwrapped (New.Read (new_fs (Some fixture) (Some (Sha "v1")))
                    ["/dir/"; "/a.txt"; "/zz"]), old_installed) /\
  New.Read (new_fs (Some fixture) (Some (Sha "v1"))) ["/dir/"; "/a.txt"; "/zz"]
    = Raise (FileNotFoundError (ArgKeyError "root-1/zz")).
Proof.
  split; [reflexivity|]. split; [reflexivity|]. split; [|vm_compute; reflexivity].
  apply (Old_Read_agrees_with_New fixture_parse up_down
           (new_fs (Some fixture) (Some (Sha "v1"))) old_installed (Sha "v1")
           fixture "root-1" (List.tl (namelist fixture)));
    try reflexivity.
  intros f Hf. vm_compute in Hf.
  repeat (apply elem_of_cons in Hf as [-> | Hf]; [reflexivity|]).
  now apply elem_of_nil in Hf.
Defined.

(** ** The constructor of the old file system *)

(** X17: a constructed old file system is settled.  When [__init__]
    returns, the version of the handle is the version the object store
    holds for the archive; the constructor has started an archive fetch
    exactly if the blob store held no blob of that version; and a [Read]
    on the file system just constructed asks the fetcher neither for the
    version nor for the archive. *)
Theorem Old_init_settled (parse : string -> result ZipFile)
    (up up' : Upstream) (object_store : gmap string (Version * option nat))
    (blobstore : gmap string string) (fs : Old.GithubFileSystem)
    (paths : list string) :
  Old.init parse up object_store blobstore = Ok fs ->
  (exists v,
      Old._version fs = Some v /\
      Old.object_store_Get fs Old.ZIP_KEY = Some v /\
      occurrences (FetchAsync "zipball") (Old.trace fs)
        = match blobstore !! Old._MakeKey (Some v) with
          | Some _ => 0
          | None => 1
          end) /\
  occurrences (Fetch "commits/HEAD") (Old.trace (Old.Read parse up' paths fs).2)
    = occurrences (Fetch "commits/HEAD") (Old.trace fs) /\
  occurrences (FetchAsync "zipball") (Old.trace (Old.Read parse up' paths fs).2)
    = occurrences (FetchAsync "zipball") (Old.trace fs).
Proof.
  intros Hinit. unfold Old.init in Hinit.
  set (fs0 := {| Old._object_store := object_store;
                 Old._blobstore := blobstore; Old._version := None;
                 Old._zip_file := FutureValue None; Old.trace := [] |}) in *.
  pose proof (Old_Stat_keeps up Old.ZIP_KEY fs0) as (Hb & _ & _).
  pose proof (Old_Stat_no_fetch up Old.ZIP_KEY fs0) as Ht.
  destruct (Old.Stat up Old.ZIP_KEY fs0) as [[info|e] fs1] eqn:HS;
    [|discriminate].
  destruct (Old_Stat_Ok _ _ _ _ _ HS) as (v & -> & Hc).
  cbn [version snd] in *.
  destruct (Old._GetZip parse up (Some v) fs1) as [[[]|e] fs2] eqn:HZ;
    [|discriminate].
  injection Hinit as <-.
  destruct (GetZip_Ok _ _ _ _ _ HZ) as [Hv Ho].
  assert (Hcache : Old.object_store_Get fs2 Old.ZIP_KEY = Some v)
    by (unfold Old.object_store_Get in *; now rewrite Ho).
  split.
  - exists v. split; [exact Hv|]. split; [exact Hcache|].
    unfold Old._GetZip in HZ. rewrite Hb in HZ. cbn [Old._blobstore fs0] in HZ.
    change (occurrences (FetchAsync "zipball") (Old.trace fs0)) with 0 in Ht.
    destruct (blobstore !! Old._MakeKey (Some v)) as [blob|].
    + destruct (parse blob) as [z|[]]; try discriminate;
        injection HZ as <-; cbn [Old.set_version Old.set_zip_file Old.trace];
        rewrite ?occurrences_log; cbn [Old.set_blobstore Old.trace];
        rewrite ?bool_decide_eq_false_2 by discriminate; lia.
    + injection HZ as <-. cbn [Old.set_version Old.set_zip_file Old.trace].
      rewrite occurrences_log, bool_decide_eq_true_2 by reflexivity. lia.
  - rewrite (Old_Read_cached parse up' fs2 v) by assumption.
    split; apply Old_Read_loop_trace; discriminate.
Qed.

Lemma Old_init_settled_witness :
  Old.init fixture_parse up_v2_missing ∅ ∅ = Ok old_unfetched /\
  occurrences (FetchAsync "zipball")
    (Old.trace (Old.Read fixture_parse up_v2 ["/a.txt"] old_unfetched).2)
    = occurrences (FetchAsync "zipball") (Old.trace old_unfetched).
Proof.
  assert (H : Old.init fixture_parse up_v2_missing ∅ ∅ = Ok old_unfetched)
    by (vm_compute; reflexivity).
  split; [exact H|].
  exact (proj2 (proj2 (Old_init_settled fixture_parse up_v2_missing up_v2
                         ∅ ∅ old_unfetched ["/a.txt"] H))).
Defined.

(** ** An archive without members *)

(** X18: the old [Read] against an archive that lists nothing, with no
    refresh due.  A batch of directory paths is answered with empty
    listings; a batch that holds a file path raises [IndexError] (the
    first name of the archive is looked up to find the prefix), where the
    new [Read] raises [FileNotFoundError] for every batch. *)
Theorem Read_empty_archive (parse : string -> result ZipFile) (up : Upstream)
    (ofs : Old.GithubFileSystem) (nfs : New.GithubFileSystem) (v : Version)
    (z : ZipFile) (paths : list string) :
  namelist z = [] ->
  Old._zip_file ofs = FutureValue (Some z) ->
  Old.object_store_Get ofs Old.ZIP_KEY = Some v ->
  Old._version ofs = Some v ->
  New._repo_zip nfs = Some z ->
  ((forall p, p ∈ paths -> endswith_sep p = true) ->
   exists m, Old.Read parse up paths ofs = (Ok m, ofs) /\
             dom m = list_to_set paths /\
             forall p, p ∈ paths -> m !! p = Some (Listing [])) /\
  ((exists p, p ∈ paths /\ endswith_sep p = false) ->
   Old.Read parse up paths ofs = (Raise IndexError, ofs)) /\
  New.Read nfs paths
    = Raise (FileNotFoundError
               (ArgText "No paths can be found, repository is empty")).
Proof.
  intros Hnames Hold Hcache Hver Hnew.
  rewrite (Old_Read_cached parse up ofs v) by assumption.
  split; [|split].
  - intros Hdirs.
    assert (Hloop : forall acc,
              exists m, Old.Read_loop parse paths acc ofs = (Ok m, ofs) /\
                        (forall p, p ∈ paths -> m !! p = Some (Listing [])) /\
                        (forall p, p ∉ paths -> m !! p = acc !! p)).
    { induction paths as [|path paths IH]; intros acc.
      - exists acc. split; [reflexivity|]. split; [|auto].
        intros p Hp. now apply elem_of_nil in Hp.
      - cbn [Old.Read_loop]. rewrite Hdirs by (apply elem_of_cons; now left).
        unfold Old._ListDir. rewrite (zip_file_Get_value parse ofs _ Hold).
        rewrite Hnames. cbn [Old.list_dir Old.strip_root List.filter fmap
                               list_fmap].
        destruct (IH (fun p Hp => Hdirs p (proj2 (elem_of_cons _ _ _)
                                             (or_intror Hp)))
                    (<[path:=Listing []]> acc)) as (m & HR & Hin & Hout).
        exists m. split; [exact HR|]. split.
        + intros p Hp. destruct (decide (p ∈ paths)) as [Hp'|Hp'];
            [now apply Hin|].
          apply elem_of_cons in Hp as [-> | Hp]; [|contradiction].
          rewrite (Hout _ Hp'). apply lookup_insert_eq.
        + intros p Hp. apply not_elem_of_cons in Hp as [Hne Hp].
          rewrite (Hout _ Hp). now rewrite lookup_insert_ne. }
    destruct (Hloop ∅) as (m & HR & Hin & Hout).
    exists m. split; [exact HR|]. split; [|exact Hin].
    apply dom_batch.
    + intros p Hp. rewrite (Hin p Hp). eauto.
    + intros p Hp. now rewrite (Hout p Hp), lookup_empty.
  - intros (p & Hp & Hfile). generalize (∅ : gmap string content).
    induction paths as [|path paths IH]; intros acc.
    + now apply elem_of_nil in Hp.
    + cbn [Old.Read_loop]. destruct (endswith_sep path) eqn:Hd.
      * unfold Old._ListDir. rewrite (zip_file_Get_value parse ofs _ Hold).
        apply IH. apply elem_of_cons in Hp as [-> | Hp]; [congruence|exact Hp].
      * unfold Old._ReadFile. rewrite (zip_file_Get_value parse ofs _ Hold).
        now rewrite Hnames.
  - unfold New.Read, New._GetNamelist. now rewrite Hnew, Hnames.
Qed.

Lemma Read_empty_archive_witness :
  namelist {| filelist := [] |} = [] /\
  Old.Read fixture_parse up_down ["/"; "/a.txt"]
    (old_fs (Some {| filelist := [] |}) (Sha "v1"))
    = (Raise IndexError, old_fs (Some {| filelist := [] |}) (Sha "v1")).
Proof.
  split; [reflexivity|].
  apply (proj1 (proj2 (Read_empty_archive fixture_parse up_down
                         (old_fs (Some {| filelist := [] |}) (Sha "v1"))
                         (new_fs (Some {| filelist := [] |}) None) (Sha "v1")
                         {| filelist := [] |} ["/"; "/a.txt"]
                         eq_refl eq_refl eq_refl eq_refl eq_refl))).
  exists "/a.txt". split; [repeat constructor|reflexivity].
Defined.

(** ** Refreshes that fail *)

(** X19: how a failed archive fetch shows in the new file system.  After
    a [Refresh] that started a fetch, [Get] on its future raises
    [TypeError] when the fetch ends in [DownloadError] (the handler
    formats its message with one argument for two places) and logs
    nothing; when the payload is no archive, [Get] returns [None] and
    logs one error.  In both cases the archive, the stat cache and the
    blob store stay as they were. *)
Theorem Refresh_failures (parse : string -> result ZipFile) (up : Upstream)
    (fs : New.GithubFileSystem) (v : option Version) :
  commits_HEAD up = Ok (ShaValue v) ->
  v <> New.stat_cache_Get fs "stat" ->
  exists future,
    New.Refresh up fs
      = (Ok future,
         New.log (FetchAsync "zipball") (New.log (Fetch "commits/HEAD") fs)) /\
    (zipball up = Raise DownloadError ->
     Future_Get (G := New._Gettable parse) future
       (New.log (FetchAsync "zipball") (New.log (Fetch "commits/HEAD") fs))
     = (Raise TypeError, FutureRaised TypeError,
        New.log (FetchAsync "zipball") (New.log (Fetch "commits/HEAD") fs))) /\
    (forall blob,
        zipball up = Ok blob -> parse blob = Raise BadZipfile ->
        Future_Get (G := New._Gettable parse) future
          (New.log (FetchAsync "zipball") (New.log (Fetch "commits/HEAD") fs))
        = (Ok tt, FutureValue tt,
           New.log LogError
             (New.log (FetchAsync "zipball")
                (New.log (Fetch "commits/HEAD") fs)))).
Proof.
  intros Hhead Hne. unfold New.Refresh, New._FetchLiveVersion. rewrite Hhead.
  change (New.stat_cache_Get (New.log (Fetch "commits/HEAD") fs) "stat")
    with (New.stat_cache_Get fs "stat").
  rewrite bool_decide_eq_true_2 by exact Hne.
  eexists. split; [reflexivity|]. split.
  - intros Hzip. rewrite Future_Get_delegate.
    unfold Get, New._Gettable, New.persist_fetch. cbn [New.cl_fetch].
    now rewrite Hzip.
  - intros blob Hzip Hparse. rewrite Future_Get_delegate.
    unfold Get, New._Gettable, New.persist_fetch. cbn [New.cl_fetch].
    now rewrite Hzip, Hparse.
Qed.

Lemma Refresh_failures_witness :
  commits_HEAD up_v2_corrupt = Ok (ShaValue (Some (Sha "v2"))) /\
  exists future,
    New.Refresh up_v2_corrupt (new_fs (Some fixture) (Some (Sha "v1")))
      = (Ok future,
         New.log (FetchAsync "zipball")
           (New.log (Fetch "commits/HEAD")
              (new_fs (Some fixture) (Some (Sha "v1"))))).
Proof.
  split; [reflexivity|].
  destruct (Refresh_failures fixture_parse up_v2_corrupt
              (new_fs (Some fixture) (Some (Sha "v1"))) (Some (Sha "v2"))
              eq_refl) as (future & HR & _).
  - discriminate.
  - exists future. exact HR.
Defined.

(** X20: a probe that fails in the old file system.  When the object
    store holds no version for the archive and the fetcher raises, or
    answers something that is no JSON object, [Read] raises that
    exception although an archive may be in hand; it has asked the
    fetcher once and changed nothing else, so the handle, its version and
    both stores are what they were. *)
Theorem Old_Read_probe_fails (parse : string -> result ZipFile)
    (up : Upstream) (fs : Old.GithubFileSystem) (paths : list string) :
  Old.object_store_Get fs Old.ZIP_KEY = None ->
  (forall key, commits_HEAD up <> Ok (MissingKey key)) ->
  (forall v, commits_HEAD up <> Ok (ShaValue v)) ->
  exists e,
    Old.Read parse up paths fs = (Raise e, Old.log (Fetch "commits/HEAD") fs) /\
    (commits_HEAD up = Raise e \/
     (commits_HEAD up = Ok NotJson /\ e = ValueError) \/
     (commits_HEAD up = Ok NotAnObject /\ e = OtherError "AttributeError")).
Proof.
  intros Hc Hk Hv. unfold Old.Read, Old.Stat. rewrite Hc.
  destruct (commits_HEAD up) as [[| |key|v]|e]; cbn.
  - eexists. split; [reflexivity|]. auto.
  - eexists. split; [reflexivity|]. auto.
  - now specialize (Hk key).
  - now specialize (Hv v).
  - eexists. split; [reflexivity|]. auto.
Qed.

Lemma Old_Read_probe_fails_witness :
  Old.object_store_Get old_expired Old.ZIP_KEY = None /\
  Old.Read fixture_parse up_down ["/a.txt"] old_expired
    = (Raise DownloadError, Old.log (Fetch "commits/HEAD") old_expired).
Proof.
  split; [reflexivity|].
  destruct (Old_Read_probe_fails fixture_parse up_down old_expired ["/a.txt"]
              eq_refl) as (e & HR & [He | [[He _] | [He _]]]);
    try discriminate.
  injection He as <-. exact HR.
Defined.

(** ** Digits in groups of three *)











(** * Archives and their root directory *)

(** The new file system takes the first name of the archive up to its
    first separator as the root prefix.  The old one takes the first name
    without its last character, and strips as many characters from every
    name it lists: the two agree on an archive whose first name is the
    root directory itself, the prefix followed by one separator, as in the
    archives github.com serves. *)
Lemma root_entry_prefix (first : string) :
  first = split_head first +:+ "/" -> init_str first = split_head first.
Proof.
  intros H. pose proof (init_str_snoc (split_head first) sep) as Hi.
  change (String sep "") with "/" in Hi. now rewrite <- H in Hi.
Qed.

(** C3, as the code has it.  For a non-empty archive, with the first name
    up to its first separator as prefix, and a file path [p] whose entry
    [prefix + p] is listed: the new [Read([p])] succeeds and maps [p] to
    the very bytes the archive stores under [prefix + p]; so does the old
    [Read([p])], leaving the file system as it was, when the first name of
    the archive is the root directory itself (the prefix followed by one
    separator) and no refresh is due (the cached version is the one the
    handle was built for). *)
Theorem Read_file_roundtrip (z : ZipFile) (first : string)
    (rest : list string) (p : string) :
  namelist z = first :: rest ->
  endswith_sep p = false ->
  (split_head first +:+ p) ∈ namelist z ->
  exists bytes,
    (split_head first +:+ p, bytes) ∈ filelist z /\
    read z (split_head first +:+ p) = Ok bytes /\
    (forall fs : New.GithubFileSystem,
        New._repo_zip fs = Some z ->
        New.Read fs [p] = Ok {[p := Bytes bytes]}) /\
    (forall (parse : string -> result ZipFile) (up : Upstream)
            (fs : Old.GithubFileSystem) (v : Version),
        first = split_head first +:+ "/" ->
        Old._zip_file fs = FutureValue (Some z) ->
        Old.object_store_Get fs Old.ZIP_KEY = Some v ->
        Old._version fs = Some v ->
        Old.Read parse up [p] fs = (Ok {[p := Bytes bytes]}, fs)).
Proof.
  intros Hnames Hfile Hin.
  destruct (read_listed z _ Hin) as (bytes & Hmem & Hread).
  exists bytes. split; [exact Hmem|]. split; [exact Hread|]. split.
  - intros fs Hzip.
    unfold New.Read, New._GetNamelist. rewrite Hzip, Hnames.
    cbn [New.Read_loop]. rewrite Hfile.
    unfold New.read_entry. rewrite Hread. now rewrite insert_empty.
  - intros parse up fs v Hroot Hzip Hcache Hver.
    rewrite (Old_Read_cached parse up fs v) by assumption.
    cbn [Old.Read_loop]. rewrite Hfile.
    rewrite (ReadFile_value parse fs z first rest p Hzip Hnames).
    rewrite (root_entry_prefix first Hroot), Hread.
    now rewrite insert_empty.
Qed.

Lemma Read_file_roundtrip_witness :
  namelist fixture = "root-1/" :: List.tl (namelist fixture) /\
  endswith_sep "/dir/b.txt" = false /\
  New.Read (new_fs (Some fixture) (Some (Sha "v1"))) ["/dir/b.txt"]
    = Ok {["/dir/b.txt" := Bytes "beta"]} /\
  Old.Read fixture_parse up_down ["/dir/b.txt"] (old_fs (Some fixture) (Sha "v1"))
    = (Ok {["/dir/b.txt" := Bytes "beta"]}, old_fs (Some fixture) (Sha "v1")).
Proof.
  destruct (Read_file_roundtrip fixture "root-1/"
              (List.tl (namelist fixture)) "/dir/b.txt" eq_refl eq_refl)
    as (bytes & _ & Hread & HN & HO).
  - vm_compute. repeat constructor.
  - vm_compute in Hread. injection Hread as <-.
    split; [reflexivity|]. split; [reflexivity|]. split.
    + exact (HN (new_fs (Some fixture) (Some (Sha "v1"))) eq_refl).
    + exact (HO fixture_parse up_down (old_fs (Some fixture) (Sha "v1"))
                (Sha "v1") eq_refl eq_refl eq_refl eq_refl).
Defined.

(** An archive whose first member is a file: the entry of [/a.txt] is
    listed under the prefix, the new [Read] returns its bytes, and the old
    [Read] asks the archive for a name made of the first name without its
    last character. *)
Lemma Read_file_roundtrip_counterexample :
  namelist fixture_flat = ["root-1/a.txt"; "root-1/dir/b.txt"] /\
  endswith_sep "/a.txt" = false /\
  (split_head "root-1/a.txt" +:+ "/a.txt") ∈ namelist fixture_flat /\
  New.Read (new_fs (Some fixture_flat) (Some (Sha "v1"))) ["/a.txt"]
    = Ok {["/a.txt" := Bytes "alpha"]} /\
  Old.Read fixture_parse up_v1 ["/a.txt"] (old_fs (Some fixture_flat) (Sha "v1"))
    = (Raise (KeyError "root-1/a.tx/a.txt"),
       old_fs (Some fixture_flat) (Sha "v1")).
Proof.
  split; [reflexivity|]. split; [reflexivity|].
  split; [vm_compute; repeat constructor|].
  split; vm_compute; reflexivity.
Qed.

(** ** Missing files, in the order of the batch *)

(** The loop of the new [Read] stops at the first file path whose entry is
    not listed. *)
Lemma New_Read_loop_first_missing (z : ZipFile) (names : list string)
    (prefix : string) (paths : list string) (acc : gmap string content)
    (p : string) :
  p ∈ paths -> endswith_sep p = false -> (prefix +:+ p) ∉ namelist z ->
  exists q,
    first_missing (namelist z) prefix paths q /\
    New.Read_loop (Some z) names prefix paths acc
      = Raise (FileNotFoundError (ArgKeyError (prefix +:+ q))).
Proof.
  intros Hp Hfile Habs. revert acc.
  induction paths as [|path paths IH]; intros acc.
  - now apply elem_of_nil in Hp.
  - cbn [New.Read_loop].
    destruct (endswith_sep path) eqn:Hd.
    + apply elem_of_cons in Hp as [-> | Hp]; [congruence|].
      destruct (IH Hp (<[path:=Listing (New.trimmed_paths names (prefix +:+ path))]> acc))
        as (q & (before & after & -> & Hfq & Haq & Hbefore) & HR).
      exists q. split; [|exact HR].
      exists (path :: before), after. repeat split; try assumption.
      intros p' Hp' Hf'. apply elem_of_cons in Hp' as [-> | Hp']; [congruence|].
      now apply Hbefore.
    + unfold New.read_entry.
      destruct (decide ((prefix +:+ path) ∈ namelist z)) as [Hin|Hout].
      * destruct (read_listed z _ Hin) as (bytes & _ & ->).
        apply elem_of_cons in Hp as [-> | Hp]; [contradiction|].
        destruct (IH Hp (<[path:=Bytes bytes]> acc))
          as (q & (before & after & -> & Hfq & Haq & Hbefore) & HR).
        exists q. split; [|exact HR].
        exists (path :: before), after. repeat split; try assumption.
        intros p' Hp' Hf'. apply elem_of_cons in Hp' as [-> | Hp']; [exact Hin|].
        now apply Hbefore.
      * rewrite (read_unlisted z _ Hout).
        exists path. split; [|reflexivity].
        exists [], paths. repeat split; try assumption.
        intros p' Hp'. now apply elem_of_nil in Hp'.
Qed.

(** The loop of the old [Read] against a handle that holds an archive:
    it stops at the first file path whose entry is not listed, with the
    archive's own [KeyError], and leaves the file system as it was. *)
Lemma Old_Read_loop_first_missing (parse : string -> result ZipFile)
    (fs : Old.GithubFileSystem) (z : ZipFile) (first : string)
    (rest : list string) (paths : list string) (acc : gmap string content)
    (p : string) :
  Old._zip_file fs = FutureValue (Some z) ->
  namelist z = first :: rest ->
  p ∈ paths -> endswith_sep p = false ->
  (init_str first +:+ p) ∉ namelist z ->
  exists q,
    first_missing (namelist z) (init_str first) paths q /\
    Old.Read_loop parse paths acc fs
      = (Raise (KeyError (init_str first +:+ q)), fs).
Proof.
  intros Hzip Hnames Hp Hfile Habs. revert acc.
  induction paths as [|path paths IH]; intros acc.
  - now apply elem_of_nil in Hp.
  - cbn [Old.Read_loop].
    destruct (endswith_sep path) eqn:Hd.
    + apply elem_of_cons in Hp as [-> | Hp]; [congruence|].
      unfold Old._ListDir. rewrite (zip_file_Get_value parse fs _ Hzip).
      destruct (IH Hp (<[path:=Listing (Old.list_dir (namelist z) path)]> acc))
        as (q & (before & after & -> & Hfq & Haq & Hbefore) & HR).
      exists q. split; [|exact HR].
      exists (path :: before), after. repeat split; try assumption.
      intros p' Hp' Hf'. apply elem_of_cons in Hp' as [-> | Hp']; [congruence|].
      now apply Hbefore.
    + rewrite (ReadFile_value parse fs z first rest path Hzip Hnames).
      destruct (decide ((init_str first +:+ path) ∈ namelist z)) as [Hin|Hout].
      * destruct (read_listed z _ Hin) as (bytes & _ & ->).
        apply elem_of_cons in Hp as [-> | Hp]; [contradiction|].
        destruct (IH Hp (<[path:=Bytes bytes]> acc))
          as (q & (before & after & -> & Hfq & Haq & Hbefore) & HR).
        exists q. split; [|exact HR].
        exists (path :: before), after. repeat split; try assumption.
        intros p' Hp' Hf'. apply elem_of_cons in Hp' as [-> | Hp']; [exact Hin|].
        now apply Hbefore.
      * rewrite (read_unlisted z _ Hout).
        exists path. split; [|reflexivity].
        exists [], paths. repeat split; try assumption.
        intros p' Hp'. now apply elem_of_nil in Hp'.
Qed.

(** C4, as the code has it.  A batch holds a file path [p] whose entry
    [prefix + p] is not in the snapshot, the prefix being the first name up
    to its first separator; [q] is the first such path of the batch.  When
    the archive lists at least one name, the new [Read] fails, returning
    no mapping, with [FileNotFoundError] wrapping the archive's [KeyError]
    for the entry of [q]; when it lists none, with [FileNotFoundError]
    about an empty repository.  The old [Read], with no refresh due, fails
    with the archive's [KeyError] for the entry of [q], leaving the file
    system as it was, when its handle holds an archive whose first name is
    the root directory (the prefix followed by one separator); when its
    handle holds no archive it succeeds and answers every path with
    nothing. *)
Theorem Read_missing_file (paths : list string) (p : string) :
  p ∈ paths ->
  endswith_sep p = false ->
  (forall (fs : New.GithubFileSystem) (first : string) (rest : list string),
      New._GetNamelist fs = first :: rest ->
      (split_head first +:+ p) ∉ first :: rest ->
      exists q,
        first_missing (first :: rest) (split_head first) paths q /\
        New.Read fs paths
          = Raise (FileNotFoundError (ArgKeyError (split_head first +:+ q)))) /\
  (forall fs : New.GithubFileSystem,
      New._GetNamelist fs = [] ->
      New.Read fs paths
        = Raise (FileNotFoundError
                   (ArgText "No paths can be found, repository is empty"))) /\
  (forall (parse : string -> result ZipFile) (up : Upstream)
          (fs : Old.GithubFileSystem) (v : Version) (z : ZipFile)
          (first : string) (rest : list string),
      Old._zip_file fs = FutureValue (Some z) ->
      Old.object_store_Get fs Old.ZIP_KEY = Some v ->
      Old._version fs = Some v ->
      namelist z = first :: rest ->
      first = split_head first +:+ "/" ->
      (split_head first +:+ p) ∉ first :: rest ->
      exists q,
        first_missing (first :: rest) (split_head first) paths q /\
        Old.Read parse up paths fs
          = (Raise (KeyError (split_head first +:+ q)), fs)) /\
  (forall (parse : string -> result ZipFile) (up : Upstream)
          (fs : Old.GithubFileSystem) (v : Version),
      Old._zip_file fs = FutureValue None ->
      Old.object_store_Get fs Old.ZIP_KEY = Some v ->
      Old._version fs = Some v ->
      exists m fs',
        Old.Read parse up paths fs = (Ok m, fs') /\
        forall q, q ∈ paths -> m !! q = Some (unavailable q)).
Proof.
  intros Hp Hfile. split; [|split; [|split]].
  - intros fs first rest Hnames Habs. unfold New.Read. rewrite Hnames.
    unfold New._GetNamelist in Hnames.
    destruct (New._repo_zip fs) as [z|]; [|discriminate].
    rewrite <- Hnames in *.
    exact (New_Read_loop_first_missing z _ _ paths ∅ p Hp Hfile Habs).
  - intros fs Hnames. unfold New.Read. now rewrite Hnames.
  - intros parse up fs v z first rest Hzip Hcache Hver Hnames Hroot Habs.
    rewrite (Old_Read_cached parse up fs v) by assumption.
    rewrite <- Hnames in *.
    rewrite <- (root_entry_prefix first Hroot) in *.
    exact (Old_Read_loop_first_missing parse fs z first rest paths ∅ p
             Hzip Hnames Hp Hfile Habs).
  - intros parse up fs v Hzip Hcache Hver.
    rewrite (Old_Read_cached parse up fs v) by assumption.
    destruct (Old_Read_loop_unavailable parse paths ∅ fs Hzip)
      as (m & fs' & HR & _ & _ & _ & _ & Hin & _).
    exists m, fs'. split; [exact HR|exact Hin].
Qed.

Lemma Read_missing_file_witness :
  "/zz" ∈ ["/a.txt"; "/zz"; "/dir/"; "/yy"] /\
  endswith_sep "/zz" = false /\
  first_missing (namelist fixture) "root-1" ["/a.txt"; "/zz"; "/dir/"; "/yy"] "/zz" /\
  New.Read (new_fs (Some fixture) (Some (Sha "v1")))
      ["/a.txt"; "/zz"; "/dir/"; "/yy"]
    = Raise (FileNotFoundError (ArgKeyError "root-1/zz")) /\
  Old.Read fixture_parse up_down ["/a.txt"; "/zz"; "/dir/"; "/yy"]
      (old_fs (Some fixture) (Sha "v1"))
    = (Raise (KeyError "root-1/zz"), old_fs (Some fixture) (Sha "v1")) /\
  exists m fs',
    Old.Read fixture_parse up_down ["/a.txt"; "/zz"; "/dir/"; "/yy"]
      (old_fs None (Sha "v1")) = (Ok m, fs') /\
    forall q, q ∈ ["/a.txt"; "/zz"; "/dir/"; "/yy"] ->
              m !! q = Some (unavailable q).
Proof.
  assert (Hin : "/zz" ∈ ["/a.txt"; "/zz"; "/dir/"; "/yy"])
    by (repeat constructor).
  assert (Habs : "root-1/zz" ∉ namelist fixture).
  { intros H. vm_compute in H.
    repeat (apply elem_of_cons in H as [H | H]; [discriminate H|]).
    now apply elem_of_nil in H. }
  destruct (Read_missing_file ["/a.txt"; "/zz"; "/dir/"; "/yy"] "/zz" Hin eq_refl)
    as (HN & _ & HK & HO).
  destruct (HN (new_fs (Some fixture) (Some (Sha "v1"))) "root-1/"
              (List.tl (namelist fixture)) eq_refl Habs) as (q & Hq & HRq).
  destruct (HK fixture_parse up_down (old_fs (Some fixture) (Sha "v1"))
              (Sha "v1") fixture "root-1/" (List.tl (namelist fixture))
              eq_refl eq_refl eq_refl eq_refl eq_refl Habs) as (q' & _ & HRq').
  assert (Eq : q = "/zz").
  { assert (HR : New.Read (new_fs (Some fixture) (Some (Sha "v1")))
                   ["/a.txt"; "/zz"; "/dir/"; "/yy"]
                 = Raise (FileNotFoundError (ArgKeyError "root-1/zz")))
      by (vm_compute; reflexivity).
    rewrite HR in HRq. injection HRq as HRq. exact (eq_sym HRq). }
  assert (Eq' : q' = "/zz").
  { assert (HR : Old.Read fixture_parse up_down ["/a.txt"; "/zz"; "/dir/"; "/yy"]
                   (old_fs (Some fixture) (Sha "v1"))
                 = (Raise (KeyError "root-1/zz"), old_fs (Some fixture) (Sha "v1")))
      by (vm_compute; reflexivity).
    rewrite HR in HRq'. injection HRq' as HRq'. exact (eq_sym HRq'). }
  subst q q'.
  split; [exact Hin|]. split; [reflexivity|]. split; [exact Hq|].
  split; [exact HRq|]. split; [exact HRq'|].
  exact (HO fixture_parse up_down (old_fs None (Sha "v1")) (Sha "v1")
            eq_refl eq_refl eq_refl).
Defined.

(** With an archive in hand the old [Read] lets the archive's [KeyError]
    out, which is no [FileNotFoundError]; with none in hand (here: the
    archive could not be fetched) it answers the missing file with the
    empty string. *)
Lemma Read_missing_file_counterexample :
  Old.Read fixture_parse up_v1 ["/a.txt"; "/zz"] (old_fs (Some fixture) (Sha "v1"))
    = (Raise (KeyError "root-1/zz"), old_fs (Some fixture) (Sha "v1")) /\
  Old.init fixture_parse up_v2_missing ∅ ∅ = Ok old_unfetched /\
  (Old.Read fixture_parse up_v2_missing ["/a.txt"] old_unfetched).1
    = Ok {["/a.txt" := Bytes ""]}.
Proof.
  split; [vm_compute; reflexivity|].
  split; [vm_compute; reflexivity|].
  vm_compute. reflexivity.
Qed.
(** ** Listings below the root directory *)

(** On an archive whose first name is the root directory and whose names
    all start with the root, the old file system lists a directory as the
    new one does. *)
Lemma list_dir_rooted (root : string) (rest : list string) (p : string) :
  (forall f, f ∈ rest -> exists f', f = root +:+ f') ->
  Old.list_dir ((root +:+ "/") :: rest) p
  = New.trimmed_paths ((root +:+ "/") :: rest) (root +:+ p).
Proof.
  intros Hall. unfold Old.list_dir, New.trimmed_paths.
  rewrite strip_root_rooted.
  rewrite (listings_agree root p _ []); [reflexivity|].
  intros f Hf. apply elem_of_cons in Hf as [-> | Hf]; [eauto|now apply Hall].
Qed.

Lemma Old_Read_nothing_below (parse : string -> result ZipFile)
    (up : Upstream) (fs : Old.GithubFileSystem) (v : Version) (z : ZipFile)
    (root : string) (rest : list string) (p : string) :
  endswith_sep p = true ->
  Old._zip_file fs = FutureValue (Some z) ->
  Old.object_store_Get fs Old.ZIP_KEY = Some v ->
  Old._version fs = Some v ->
  namelist z = (root +:+ "/") :: rest ->
  (forall f, f ∈ rest -> exists f', f = root +:+ f') ->
  (forall n, n ∈ namelist z -> startswith n (root +:+ p) = true ->
             n = root +:+ p) ->
  Old.Read parse up [p] fs = (Ok {[p := Listing []]}, fs).
Proof.
  intros Hdir Hzip Hcache Hver Hnames Hall Hnone.
  rewrite (Old_Read_cached parse up fs v) by assumption.
  cbn [Old.Read_loop]. rewrite Hdir.
  unfold Old._ListDir. rewrite (zip_file_Get_value parse fs _ Hzip).
  rewrite Hnames, (list_dir_rooted root rest p Hall), <- Hnames.
  rewrite (trimmed_paths_nil _ _ Hnone). now rewrite insert_empty.
Qed.

(** C10, as the code has it.  A directory path [p] below which the
    snapshot lists nothing (no listed name starts with [prefix + p], the
    prefix being the first name up to its first separator) reads as the
    empty listing instead of failing, and a snapshot that does list the
    directory itself, with nothing in it, reads the same: in the new file
    system always, in the old one when the first name of the archive is
    the root directory (the prefix followed by one separator), every name
    starts with it, and no refresh is due. *)
Theorem Read_nonexistent_directory (p : string) :
  endswith_sep p = true ->
  (forall (fs : New.GithubFileSystem) (first : string) (rest : list string),
      New._GetNamelist fs = first :: rest ->
      (forall n, n ∈ first :: rest ->
                 startswith n (split_head first +:+ p) = false) ->
      New.Read fs [p] = Ok {[p := Listing []]} /\
      forall fs' : New.GithubFileSystem,
        New._GetNamelist fs' = (first :: rest) ++ [split_head first +:+ p] ->
        New.Read fs' [p] = New.Read fs [p]) /\
  (forall (parse : string -> result ZipFile) (up : Upstream)
          (fs : Old.GithubFileSystem) (v : Version) (z : ZipFile)
          (first : string) (rest : list string),
      Old._zip_file fs = FutureValue (Some z) ->
      Old.object_store_Get fs Old.ZIP_KEY = Some v ->
      Old._version fs = Some v ->
      namelist z = first :: rest ->
      first = split_head first +:+ "/" ->
      (forall n, n ∈ rest -> startswith n first = true) ->
      (forall n, n ∈ first :: rest ->
                 startswith n (split_head first +:+ p) = false) ->
      Old.Read parse up [p] fs = (Ok {[p := Listing []]}, fs) /\
      forall (fs' : Old.GithubFileSystem) (v' : Version) (z' : ZipFile),
        Old._zip_file fs' = FutureValue (Some z') ->
        Old.object_store_Get fs' Old.ZIP_KEY = Some v' ->
        Old._version fs' = Some v' ->
        namelist z' = (first :: rest) ++ [split_head first +:+ p] ->
        Old.Read parse up [p] fs' = (Ok {[p := Listing []]}, fs')).
Proof.
  intros Hdir. split.
  - intros fs first rest Hnames Hnone.
    assert (HR : New.Read fs [p] = Ok {[p := Listing []]}).
    { unfold New.Read. rewrite Hnames. cbn [New.Read_loop]. rewrite Hdir.
      rewrite trimmed_paths_nil; [now rewrite insert_empty|].
      intros n Hn Hs. rewrite (Hnone n Hn) in Hs. discriminate. }
    split; [exact HR|]. intros fs' Hnames'. rewrite HR.
    unfold New.Read. rewrite Hnames'. cbn [app New.Read_loop]. rewrite Hdir.
    rewrite trimmed_paths_nil; [now rewrite insert_empty|].
    intros n Hn Hs. change (n ∈ (first :: rest) ++ [split_head first +:+ p]) in Hn.
    apply elem_of_app in Hn as [Hn | Hn].
    + rewrite (Hnone n Hn) in Hs. discriminate.
    + now apply list_elem_of_singleton in Hn.
  - intros parse up fs v z first rest Hzip Hcache Hver Hnames Hroot Hall Hnone.
    set (root := split_head first) in *. clearbody root. subst first.
    assert (Hrooted : forall f, f ∈ rest -> exists f', f = root +:+ f').
    { intros f Hf. destruct (rooted_split _ _ (Hall f Hf)) as [r ->]. eauto. }
    split.
    + apply (Old_Read_nothing_below parse up fs v z root rest p);
        try assumption.
      intros n Hn Hs. rewrite Hnames in Hn. rewrite (Hnone n Hn) in Hs.
      discriminate.
    + intros fs' v' z' Hzip' Hcache' Hver' Hnames'.
      apply (Old_Read_nothing_below parse up fs' v' z' root
               (rest ++ [root +:+ p]) p); try assumption.
      * intros f Hf. apply elem_of_app in Hf as [Hf | Hf]; [now apply Hrooted|].
        apply list_elem_of_singleton in Hf as ->. eauto.
      * intros n Hn Hs. rewrite Hnames' in Hn.
        apply elem_of_app in Hn as [Hn | Hn].
        -- rewrite (Hnone n Hn) in Hs. discriminate.
        -- now apply list_elem_of_singleton in Hn.
Qed.

Lemma Read_nonexistent_directory_witness :
  endswith_sep "/nope/" = true /\
  New.Read (new_fs (Some fixture) (Some (Sha "v1"))) ["/nope/"]
    = Ok {["/nope/" := Listing []]} /\
  New.Read (new_fs (Some fixture) (Some (Sha "v1"))) ["/empty/"]
    = Ok {["/empty/" := Listing []]} /\
  Old.Read fixture_parse up_down ["/nope/"] (old_fs (Some fixture) (Sha "v1"))
    = (Ok {["/nope/" := Listing []]}, old_fs (Some fixture) (Sha "v1")).
Proof.
  destruct (Read_nonexistent_directory "/nope/" eq_refl) as [HN HO].
  assert (Hnone : forall n, n ∈ "root-1/" :: List.tl (namelist fixture) ->
                            startswith n (split_head "root-1/" +:+ "/nope/") = false).
  { intros n Hn. vm_compute in Hn.
    repeat (apply elem_of_cons in Hn as [-> | Hn]; [reflexivity|]).
    now apply elem_of_nil in Hn. }
  split; [reflexivity|]. split; [|split].
  - exact (proj1 (HN (new_fs (Some fixture) (Some (Sha "v1")))
                     "root-1/" (List.tl (namelist fixture)) eq_refl Hnone)).
  - vm_compute. reflexivity.
  - refine (proj1 (HO fixture_parse up_down (old_fs (Some fixture) (Sha "v1"))
                      (Sha "v1") fixture "root-1/" (List.tl (namelist fixture))
                      eq_refl eq_refl eq_refl eq_refl eq_refl _ Hnone)).
    intros n Hn. vm_compute in Hn.
    repeat (apply elem_of_cons in Hn as [-> | Hn]; [reflexivity|]).
    now apply elem_of_nil in Hn.
Defined.

(** An archive whose first member is a file: no name starts with
    [root-1/zzz/], the new [Read] lists nothing for [/zzz/], and the old
    [Read], stripping from every name as many characters as the first
    name has, less one, finds a child. *)
Lemma Read_nonexistent_directory_counterexample :
  namelist fixture_deep = ["root-1/a.txt"; "root-1/dir2/zzz/f"] /\
  endswith_sep "/zzz/" = true /\
  startswith "root-1/a.txt" (split_head "root-1/a.txt" +:+ "/zzz/") = false /\
  startswith "root-1/dir2/zzz/f" (split_head "root-1/a.txt" +:+ "/zzz/")
    = false /\
  New.Read (new_fs (Some fixture_deep) (Some (Sha "v1"))) ["/zzz/"]
    = Ok {["/zzz/" := Listing []]} /\
  Old.Read fixture_parse up_v1 ["/zzz/"] (old_fs (Some fixture_deep) (Sha "v1"))
    = (Ok {["/zzz/" := Listing ["f"]]}, old_fs (Some fixture_deep) (Sha "v1")).
Proof.
  split; [reflexivity|]. split; [reflexivity|]. split; [reflexivity|].
  split; [reflexivity|]. split; vm_compute; reflexivity.
Qed.

(** X3: no immediate child is left out of a listing.  Whenever an entry
    of the snapshot is the prefix (the first name up to its first
    separator), the directory path and a name that is an immediate child,
    the listing that the new [Read] returns for the directory holds the
    name, and so does the listing of the old [_ListDir] when the first
    name of the archive is the root directory (the prefix followed by one
    separator). *)
Theorem listing_complete (p n : string) :
  immediate_child n ->
  (forall (fs : New.GithubFileSystem) (first : string) (rest paths : list string)
          (m : gmap string content) (l : list string),
      New._GetNamelist fs = first :: rest ->
      (split_head first +:+ p +:+ n) ∈ first :: rest ->
      New.Read fs paths = Ok m ->
      m !! p = Some (Listing l) ->
      n ∈ l) /\
  (forall (parse : string -> result ZipFile) (fs : Old.GithubFileSystem)
          (z : ZipFile) (first : string) (rest : list string),
      Old._zip_file fs = FutureValue (Some z) ->
      namelist z = first :: rest ->
      first = split_head first +:+ "/" ->
      (split_head first +:+ p +:+ n) ∈ first :: rest ->
      exists l, Old._ListDir parse p fs = (Ok l, fs) /\ n ∈ l).
Proof.
  intros [Hne Hsep]. pose proof (last_contains_init n Hsep) as Hc. split.
  - intros fs first rest paths m l Hnames Hin HR Hm.
    unfold New.Read in HR. rewrite Hnames in HR.
    destruct (New_Read_loop_listing _ _ _ _ _ _ _ _ HR Hm) as [H | ->].
    + rewrite lookup_empty in H. discriminate.
    + apply trimmed_paths_complete; [|exact Hne|exact Hc].
      now rewrite app_assoc_str.
  - intros parse fs z first rest Hzip Hnames Hroot Hin.
    set (root := split_head first) in *. clearbody root. subst first.
    eexists. split.
    + unfold Old._ListDir. now rewrite (zip_file_Get_value parse fs _ Hzip).
    + apply list_dir_complete; [|exact Hne|exact Hc].
      rewrite Hnames, strip_root_rooted.
      apply list_elem_of_fmap. exists (root +:+ p +:+ n).
      split; [now rewrite drop_str_app|exact Hin].
Qed.

Lemma listing_complete_witness :
  immediate_child "sub/" /\
  New.Read (new_fs (Some fixture) (Some (Sha "v1"))) ["/dir/"]
    = Ok {["/dir/" := Listing ["b.txt"; "sub/"]]} /\
  "sub/" ∈ ["b.txt"; "sub/"] /\
  exists l, Old._ListDir fixture_parse "/dir/" (old_fs (Some fixture) (Sha "v1"))
            = (Ok l, old_fs (Some fixture) (Sha "v1")) /\ "sub/" ∈ l.
Proof.
  assert (Hchild : immediate_child "sub/").
  { split; [discriminate|]. intros [|[|[|[|i]]]] Hi; try discriminate.
    reflexivity. }
  assert (HR : New.Read (new_fs (Some fixture) (Some (Sha "v1"))) ["/dir/"]
               = Ok {["/dir/" := Listing ["b.txt"; "sub/"]]})
    by (vm_compute; reflexivity).
  assert (Hin : (split_head "root-1/" +:+ "/dir/" +:+ "sub/")
                ∈ "root-1/" :: List.tl (namelist fixture))
    by (vm_compute; repeat constructor).
  destruct (listing_complete "/dir/" "sub/" Hchild) as [HN HO].
  split; [exact Hchild|]. split; [exact HR|]. split.
  - refine (HN (new_fs (Some fixture) (Some (Sha "v1"))) "root-1/"
              (List.tl (namelist fixture)) ["/dir/"] _ _ eq_refl Hin HR _).
    vm_compute. reflexivity.
  - exact (HO fixture_parse (old_fs (Some fixture) (Sha "v1")) fixture
              "root-1/" (List.tl (namelist fixture)) eq_refl eq_refl eq_refl Hin).
Defined.
